(** * FER probability post-processing pipeline

    A shallow embedding of [ProbabilityAdjustment.h] and of the
    post-processing part of [main.cpp] (functions [applyEma],
    [medianFromHistory] and the per-frame body of
    [captureVideoAndProcess]).

    The C++ code computes on [float].  The pipeline is written once over
    an interface of arithmetic operations ([Arith]) and instantiated twice:
    - [binary32]: IEEE-754 single precision, every operation rounded to
      nearest-even (the semantics of [float] with FLT_EVAL_METHOD 0 and
      without contraction of [a*b+c] into a fused multiply-add);
    - [exact]: the rationals [Qc], arithmetic without rounding or overflow.

    [std::vector<float>] is a [list]; [operator[]] outside the range of the
    vector is undefined behaviour in C++ and is the error [OutOfRange] of
    the [res] monad here.

    [std::nth_element] is a library function whose result the C++ standard
    fixes only in part: the pipeline takes it as a parameter ([NthElement])
    and the properties hold for every function that meets the part of the
    postcondition written in [nth_element_spec]. *)

From Stdlib Require Import ZArith QArith Qcanon Lia.
From Stdlib Require Import Floats.SpecFloat.
From stdpp Require Import base list sorting strings.

Local Open Scope Z_scope.

(** ** Arithmetic interface *)

Class Arith (F : Type) := {
  (** the value of the literal [num/den] in the type *)
  f_lit : Z -> positive -> F;
  f_add : F -> F -> F;
  f_sub : F -> F -> F;
  f_mul : F -> F -> F;
  f_div : F -> F -> F;
  (** [operator<] *)
  f_ltb : F -> F -> bool
}.

Definition f_zero `{Arith F} : F := f_lit 0 1.
Definition f_one `{Arith F} : F := f_lit 1 1.

(** *** IEEE-754 binary32 *)

Module Binary32.
Definition prec : Z := 24.
Definition emax : Z := 128.

Definition of_Z (z : Z) : spec_float := binary_normalize prec emax z 0 false.

(** A decimal literal [num/den]: the quotient of two exactly represented
    integers (below [2^24]), correctly rounded. *)
Definition lit (num : Z) (den : positive) : spec_float :=
  SFdiv prec emax (of_Z num) (of_Z (Zpos den)).

(** The next binary32 value below [x]. *)
Definition pred (x : spec_float) : spec_float := SFpred prec emax x.
End Binary32.

#[export] Instance binary32 : Arith spec_float := {|
  f_lit := Binary32.lit;
  f_add := SFadd Binary32.prec Binary32.emax;
  f_sub := SFsub Binary32.prec Binary32.emax;
  f_mul := SFmul Binary32.prec Binary32.emax;
  f_div := SFdiv Binary32.prec Binary32.emax;
  f_ltb := SFltb
|}.

(** *** Exact rationals

    Not a model of the code: the arithmetic the code would have without
    rounding, overflow, NaN and signed zeros.  It is used only where a
    statement says "in exact arithmetic". *)

Definition Qcltb (x y : Qc) : bool := negb (Qle_bool (this y) (this x)).

#[export] Instance exact : Arith Qc := {|
  f_lit := fun num den => Q2Qc (num # den);
  f_add := Qcplus;
  f_sub := Qcminus;
  f_mul := Qcmult;
  f_div := Qcdiv;
  f_ltb := Qcltb
|}.

(** ** Undefined behaviour as an error *)

Inductive res (A : Type) : Type :=
| Ret (a : A)
| OutOfRange.
Arguments Ret {A} a.
Arguments OutOfRange {A}.

#[export] Instance res_ret : MRet res := fun _ a => Ret a.
#[export] Instance res_bind : MBind res := fun _ _ k m =>
  match m with
  | Ret a => k a
  | OutOfRange => OutOfRange
  end.

(** [static_cast<size_t>(n)] of an [int] on an LP64 platform, and the
    values an [int] can take. *)
Definition size_t_of_int (n : Z) : Z := n mod 2 ^ 64.
Definition int_range (n : Z) : Prop := - 2 ^ 31 <= n < 2 ^ 31.

(** ** [std::nth_element] *)

(** [nth_element col nth] is the vector [col] after
    [std::nth_element(col.begin(), col.begin() + nth, col.end())]. *)
Class NthElement (F : Type) := nth_element : list F -> nat -> list F.

Section Ordering.
Context {F : Type} `{Arith F}.

(** [operator<] is a strict weak ordering on the values of [col]: it is
    asymmetric and "not less than" is transitive.  This is the
    precondition of [std::nth_element]. *)
Definition strict_weak_order (col : list F) : Prop :=
  (forall x y, x ∈ col -> y ∈ col -> f_ltb x y = true -> f_ltb y x = false) /\
  (forall x y z, x ∈ col -> y ∈ col -> z ∈ col ->
     f_ltb y x = false -> f_ltb z y = false -> f_ltb z x = false).

(** No element is less than an element before it. *)
Definition ascending (l : list F) : Prop :=
  forall (i j : nat) x y,
    (i < j)%nat -> l !! i = Some x -> l !! j = Some y -> f_ltb y x = false.

(** [ascending] as a test. *)
Fixpoint ascendingb (l : list F) : bool :=
  match l with
  | [] => true
  | x :: l' => forallb (fun y => negb (f_ltb y x)) l' && ascendingb l'
  end.

(** What is used of the postcondition of [std::nth_element]: the vector is
    rearranged, and on a strict weak ordering the element at [nth] is the
    element that would be there if the vector were sorted. *)
Definition nth_element_spec (N : NthElement F) : Prop :=
  (forall col nth, nth_element col nth ≡ₚ col) /\
  (forall col (nth : nat),
     strict_weak_order col ->
     exists sorted,
       sorted ≡ₚ col /\ ascending sorted /\
       nth_element col nth !! nth = sorted !! nth).
End Ordering.

Section Pipeline.
Context {F : Type} `{Arith F} {N : NthElement F}.

(** ** ProbabilityAdjustment.h *)

Record EmotionProbabilityAdjuster := mkAdjuster {
  boostFactor : F;
  neutralIndex : Z
}.

(** The constructor, with its default arguments. *)
Definition default_boostFactor : F := f_lit 3 2.
Definition default_neutralIndex : Z := 3.
Definition newAdjuster (boost : option F) (neutral : option Z)
  : EmotionProbabilityAdjuster :=
  mkAdjuster (default default_boostFactor boost)
             (default default_neutralIndex neutral).

(** [std::accumulate(begin, end, 0.0f)] *)
Definition accumulate (v : list F) : F := foldl f_add f_zero v.

(** The vector after the guarded [adjusted[neutralIndex] *= boostFactor]. *)
Definition boost (a : EmotionProbabilityAdjuster) (probabilities : list F)
  : list F :=
  let adjusted := probabilities in
  if Z.of_nat (length adjusted) >? size_t_of_int (neutralIndex a)
  then alter (fun p => f_mul p (boostFactor a))
             (Z.to_nat (size_t_of_int (neutralIndex a))) adjusted
  else adjusted.

Definition adjust (a : EmotionProbabilityAdjuster) (probabilities : list F)
  : list F :=
  let adjusted := boost a probabilities in
  let sum := accumulate adjusted in
  if f_ltb f_zero sum
  then (fun p => f_div p sum) <$> adjusted
  else adjusted.

(** ** main.cpp: [applyEma] *)

(** [alpha * x + (1.0f - alpha) * e] *)
Definition ema_update (alpha x e : F) : F :=
  f_add (f_mul alpha x) (f_mul (f_sub f_one alpha) e).

(** The body of the [for] loop at index [i]; [new_probs[i]] and
    [ema_state[i]] are read and [ema_state[i]] is written. *)
Definition ema_step (new_probs ema_state : list F) (alpha : F) (i : nat)
  : res (list F) :=
  match new_probs !! i, ema_state !! i with
  | Some x, Some e => Ret (<[i := ema_update alpha x e]> ema_state)
  | _, _ => OutOfRange
  end.

(** [for (size_t i = start; i < new_probs.size(); ++i)], with
    [n = new_probs.size() - start] iterations left. *)
Fixpoint ema_loop (n : nat) (i : nat) (new_probs ema_state : list F)
  (alpha : F) : res (list F) :=
  match n with
  | O => Ret ema_state
  | S n' =>
      ema_state' ← ema_step new_probs ema_state alpha i;
      ema_loop n' (S i) new_probs ema_state' alpha
  end.

(** Returns the returned vector and the new value of the reference
    parameter [ema_state]. *)
Definition applyEma (new_probs ema_state : list F) (alpha : F)
  : res (list F * list F) :=
  match ema_state with
  | [] => Ret (new_probs, new_probs)
  | _ =>
      ema_state' ← ema_loop (length new_probs) 0 new_probs ema_state alpha;
      Ret (ema_state', ema_state')
  end.

(** ** main.cpp: [medianFromHistory] *)

(** [col] as filled by the inner loop over the history. *)
Definition column (history : list (list F)) (c : nat) : list F :=
  omap (fun h => h !! c) history.

Fixpoint insert_sorted (x : F) (l : list F) : list F :=
  match l with
  | [] => [x]
  | y :: l' => if f_ltb x y then x :: l else y :: insert_sorted x l'
  end.

(** An insertion sort by [operator<]. *)
Definition sort (l : list F) : list F := foldr insert_sorted [] l.

(** One function that meets [nth_element_spec]: sorting the whole
    vector.  It is used to run the pipeline on concrete inputs. *)
Definition by_sorting : NthElement F := fun col _ => sort col.

(** The body of the loop over the classes. *)
Definition median_step (history : list (list F)) (medians : list F)
  (c : nat) : list F :=
  let col := column history c in
  match col with
  | [] => medians
  | _ =>
      let mid := (length col / 2)%nat in
      let col := nth_element col mid in
      <[c := nth mid col f_zero]> medians
  end.

Definition medianFromHistory (history : list (list F)) : list F :=
  match history with
  | [] => []
  | front :: _ =>
      let classesCount := length front in
      let medians := replicate classesCount f_zero in
      foldl (median_step history) medians (seq 0 classesCount)
  end.

(** ** main.cpp: the pipeline inside [captureVideoAndProcess] *)

(** The constants of the driver, taken as a configuration. *)
Record Config := mkConfig {
  adjuster : EmotionProbabilityAdjuster;
  ema_alpha : F;
  maxHistory : Z
}.

(** [adjuster(2.0f)], [ema_alpha = 0.1f], [maxHistory = 60] *)
Definition driver_config : Config :=
  mkConfig (newAdjuster (Some (f_lit 2 1)) None) (f_lit 1 10) 60.

Record State := mkState {
  history : list (list F);
  ema_state : list F
}.

Definition initial : State := mkState [] [].

(** [history.push_back(v); if (history.size() > maxHistory)
    history.pop_front();] *)
Definition push (cap : Z) {A} (history : list A) (v : A) : list A :=
  let history := history ++ [v] in
  if Z.of_nat (length history) >? size_t_of_int cap
  then drop 1 history
  else history.

(** What a frame hands to [visualizeProbabilities]. *)
Definition display (median_probs ema_probs : list F) : list F :=
  match median_probs with
  | [] => ema_probs
  | _ => median_probs
  end.

(** One iteration of the [while] loop on the probabilities returned by
    [face2Int]; [None] when the frame is skipped by [continue], else the
    vector displayed. *)
Definition cycle (cfg : Config) (st : State) (probabilities : list F)
  : res (State * option (list F)) :=
  match probabilities with
  | [] => Ret (st, None)
  | _ =>
      let adjustedProbabilities := adjust (adjuster cfg) probabilities in
      '(ema_probs, ema_state') ←
        applyEma adjustedProbabilities (ema_state st) (ema_alpha cfg);
      let history' := push (maxHistory cfg) (history st) ema_probs in
      let median_probs := medianFromHistory history' in
      Ret (mkState history' ema_state',
           Some (display median_probs ema_probs))
  end.

(** The frames of a run, in order. *)
Fixpoint run (cfg : Config) (st : State) (frames : list (list F))
  : res (State * list (option (list F))) :=
  match frames with
  | [] => Ret (st, [])
  | probabilities :: frames' =>
      '(st', d) ← cycle cfg st probabilities;
      '(st'', ds) ← run cfg st' frames';
      Ret (st'', d :: ds)
  end.

End Pipeline.

Arguments EmotionProbabilityAdjuster F : clear implicits.
Arguments Config F : clear implicits.
Arguments State F : clear implicits.

(** ** Values and predicates used by the statements *)

Module Scenario.
Section Scenario.
Context {F : Type} `{Arith F}.

(** N=4, NeutralIndex=3, BoostFactor=2.0, Alpha=0.1, capacity=3 *)
Definition config : Config F :=
  mkConfig (newAdjuster (Some (f_lit 2 1)) (Some 3)) (f_lit 1 10) 3.

Definition raw : list F := replicate 4 (f_lit 1 4).

(** [1/7, 1/7, 1/7, 4/7] *)
Definition sevenths : list F :=
  [f_lit 1 7; f_lit 1 7; f_lit 1 7; f_lit 4 7].

(** [1/5, 1/5, 1/5, 2/5] *)
Definition fifths : list F :=
  [f_lit 1 5; f_lit 1 5; f_lit 1 5; f_lit 2 5].
End Scenario.
End Scenario.


(** [|x - 1.0| <= 1e-5] in binary32. *)
Definition within_tolerance (x : spec_float) : bool :=
  SFleb (SFabs (f_sub x f_one)) (f_lit 1 100000).

(** The place of a binary32 value that is not a NaN in the order of
    [operator<]: the class and the sign first, then the exponent, then the
    mantissa. *)
Definition order_key (x : spec_float) : Z * Z * Z :=
  match x with
  | S754_infinity true => (0, 0, 0)
  | S754_finite true m e => (1, - e, - Z.pos m)
  | S754_zero _ | S754_nan => (2, 0, 0)
  | S754_finite false m e => (3, e, Z.pos m)
  | S754_infinity false => (4, 0, 0)
  end.

Definition key_lt (a b : Z * Z * Z) : Prop :=
  a.1.1 < b.1.1 \/
  (a.1.1 = b.1.1 /\ (a.1.2 < b.1.2 \/ (a.1.2 = b.1.2 /\ a.2 < b.2))).


Section SpecWords.
Context {F : Type} `{Arith F}.

(** [col[col.size() / 2]] after [std::nth_element]. *)
Definition median_of {N : NthElement F} (col : list F) : F :=
  nth (length col / 2)%nat (nth_element col (length col / 2)%nat) f_zero.


End SpecWords.

(** The states of the driver loop: the state before the first frame and
    the states that an iteration returns. *)
Inductive reachable {F : Type} `{Arith F} {N : NthElement F} (cfg : Config F)
  : State F -> Prop :=
| reachable_initial : reachable cfg initial
| reachable_cycle st probabilities st' d :
    reachable cfg st ->
    cycle cfg st probabilities = Ret (st', d) ->
    reachable cfg st'.

(** ** main.cpp: [visualizeProbabilities]

    The function computes on [int], [size_t] and [float] and draws with
    OpenCV.  The drawing calls are recorded, in the order they are made, as
    a list of commands; the undefined cases of the C++ code are the faults
    of [outcome]. *)

Inductive fault : Type :=
| IndexOutOfRange   (** [operator[]] outside a vector or deque *)
| DivisionByZero    (** integer division by 0 *)
| IntOverflow.      (** [static_cast<int>] of a float no [int] holds *)

Inductive outcome (A : Type) : Type :=
| Done (a : A)
| Fault (f : fault).
Arguments Done {A} a.
Arguments Fault {A} f.

#[export] Instance outcome_ret : MRet outcome := fun _ a => Done a.
#[export] Instance outcome_bind : MBind outcome := fun _ _ k m =>
  match m with
  | Done a => k a
  | Fault f => Fault f
  end.

Definition index {A} (l : list A) (i : nat) : outcome A :=
  match l !! i with
  | Some x => Done x
  | None => Fault IndexOutOfRange
  end.

(** [static_cast<int>(x)]: the fractional part is discarded; the result
    is defined when the truncated value is an [int]. *)
Definition int_of_float (x : spec_float) : outcome Z :=
  match x with
  | S754_zero _ => Done 0
  | S754_finite s m e =>
      let magnitude := Z.shiftl (Zpos m) e in
      let z := if s then - magnitude else magnitude in
      if (- 2 ^ 31 <=? z) && (z <? 2 ^ 31) then Done z else Fault IntOverflow
  | S754_infinity _ | S754_nan => Fault IntOverflow
  end.

Record Point := mkPoint { px : Z; py : Z }.

(** [Scalar(0, 0, 0)] is [None], an entry of [randomColorsVec] is
    [Some]. *)
Inductive Draw (C : Type) : Type :=
| SetTo
| Line (pt1 pt2 : Point) (color : option C)
| PutText (text : string) (org : Point)
| ImShow.
Arguments SetTo {C}.
Arguments Line {C} pt1 pt2 color.
Arguments PutText {C} text org.
Arguments ImShow {C}.

Module Graph.
Definition width : Z := 1600.
Definition height : Z := 400.
Definition margin : Z := 5.
End Graph.

(** [history.size() - 1] as a [size_t]. *)
Definition size_minus_one (size : nat) : Z := (Z.of_nat size - 1) mod 2 ^ 64.

Section Visualize.
Context {C : Type}.
Implicit Types (history : list (list spec_float)) (colors : list C).

(** [static_cast<int>(sectionStart + margin + i * scaleX)] *)
Definition graph_x (sectionStart : Z) (scaleX : spec_float) (i : nat)
  : outcome Z :=
  int_of_float
    (f_add (Binary32.of_Z (sectionStart + Graph.margin))
           (f_mul (Binary32.of_Z (Z.of_nat i)) scaleX)).

(** [static_cast<int>(height - margin - v * scaleY)] *)
Definition graph_y (scaleY : spec_float) (v : spec_float) : outcome Z :=
  int_of_float
    (f_sub (Binary32.of_Z (Graph.height - Graph.margin)) (f_mul v scaleY)).

(** [Point(x of i, y of history[i][j])]; the abscissa is evaluated
    first. *)
Definition graph_point history (sectionStart : Z) (scaleX scaleY : spec_float)
  (j i : nat) : outcome Point :=
  x ← graph_x sectionStart scaleX i;
  h ← index history i;
  v ← index h j;
  y ← graph_y scaleY v;
  Done (mkPoint x y).

(** [for (size_t i = start; i < history.size() - 1; i++)], with [n]
    iterations left. *)
Fixpoint graph_segments history colors (sectionStart : Z)
  (scaleX scaleY : spec_float) (j : nat) (n i : nat)
  : outcome (list (Draw C)) :=
  match n with
  | O => Done []
  | S n' =>
      pt1 ← graph_point history sectionStart scaleX scaleY j i;
      pt2 ← graph_point history sectionStart scaleX scaleY j (i + 1);
      color ← index colors j;
      rest ← graph_segments history colors sectionStart scaleX scaleY j
               n' (S i);
      Done (Line pt1 pt2 (Some color) :: rest)
  end.

(** The body of the loop over the classes, for the class [j]. *)
Definition graph_section (classes : list string) history colors
  (sectionWidth : Z) (scaleX scaleY : spec_float) (j : nat)
  : outcome (list (Draw C)) :=
  let sectionStart := Z.of_nat j * sectionWidth in
  name ← index classes j;
  segments ← graph_segments history colors sectionStart scaleX scaleY j
               (Z.to_nat (size_minus_one (length history))) 0;
  Done ([Line (mkPoint (sectionStart + Graph.margin) Graph.margin)
              (mkPoint (sectionStart + Graph.margin)
                       (Graph.height - Graph.margin)) None;
         Line (mkPoint (sectionStart + Graph.margin)
                       (Graph.height - Graph.margin))
              (mkPoint (sectionStart + sectionWidth - Graph.margin)
                       (Graph.height - Graph.margin)) None;
         PutText name (mkPoint (sectionStart + Graph.margin + 5)
                               (Graph.margin + 10))]
        ++ segments).

(** [for (int j = start; j < classes.size(); j++)], with [n] iterations
    left. *)
Fixpoint graph_sections (classes : list string) history colors
  (sectionWidth : Z) (scaleX scaleY : spec_float) (n j : nat)
  : outcome (list (Draw C)) :=
  match n with
  | O => Done []
  | S n' =>
      section ← graph_section classes history colors sectionWidth
                  scaleX scaleY j;
      rest ← graph_sections classes history colors sectionWidth
               scaleX scaleY n' (S j);
      Done (section ++ rest)
  end.

Definition visualizeProbabilities (probabilities : list spec_float)
  (classes : list string) history (maxHistory : Z) colors
  : outcome (list (Draw C)) :=
  match classes with
  | [] => Fault DivisionByZero
  | _ =>
      let sectionWidth := Graph.width / Z.of_nat (length classes) in
      let scaleX :=
        f_div (Binary32.of_Z (sectionWidth - 2 * Graph.margin))
              (Binary32.of_Z maxHistory) in
      let scaleY := Binary32.of_Z (Graph.height - 2 * Graph.margin) in
      sections ← graph_sections classes history colors sectionWidth
                   scaleX scaleY (length classes) 0;
      Done ([SetTo] ++ sections ++
            [PutText "DeltaTime"%string
               (mkPoint (Graph.width / 2 - 30)
                        (Graph.height - Graph.margin + 30));
             PutText "Probability"%string
               (mkPoint (Graph.width - 60) (Graph.margin - 10));
             ImShow])
  end.
End Visualize.

(** The values of the history that [visualizeProbabilities] can place on
    the graph of height 400. *)
Definition plottable (v : spec_float) : Prop :=
  exists y,
    graph_y (Binary32.of_Z (Graph.height - 2 * Graph.margin)) v = Done y.

(** [classes] of main.cpp *)
Definition classes : list string :=
  ["fear"; "angry"; "sad"; "neutral"; "surprise"; "disgust"; "happy"]%string.

(** One iteration of the driver with its drawing: the pipeline, then
    [visualizeProbabilities] on the vector displayed and the new
    history. *)
Definition frame {C} {N : NthElement spec_float} (cfg : Config spec_float)
  (colors : list C) (st : State spec_float) (probabilities : list spec_float)
  : outcome (State spec_float * list (Draw C)) :=
  match cycle cfg st probabilities with
  | OutOfRange => Fault IndexOutOfRange
  | Ret (st', None) => Done (st', [])
  | Ret (st', Some display_probs) =>
      draws ← visualizeProbabilities display_probs classes (history st')
                (maxHistory cfg) colors;
      Done (st', draws)
  end.

(** [x <= y] on the rationals is decidable. *)
#[export] Instance Qcle_dec (x y : Qc) : Decision (x <= y)%Qc :=
  match Qclt_le_dec y x with
  | left Hlt => right (Qclt_not_le _ _ Hlt)
  | right Hle => left Hle
  end.

(** * Properties *)

Lemma size_t_of_int_nonneg (n : Z) : 0 <= n < 2 ^ 31 -> size_t_of_int n = n.
Proof. intros Hn. unfold size_t_of_int. apply Z.mod_small. lia. Qed.

Lemma size_t_of_int_neg (n : Z) :
  - 2 ^ 31 <= n < 0 -> 2 ^ 64 - 2 ^ 31 <= size_t_of_int n.
Proof.
  intros Hn. unfold size_t_of_int.
  replace n with (n + 2 ^ 64 + (-1) * 2 ^ 64) by lia.
  rewrite Z.mod_add by lia. rewrite Z.mod_small; lia.
Qed.

(** Case analysis on the [>?] of the goal. *)
Ltac case_gtb H :=
  match goal with
  | |- context [ ?x >? ?y ] => destruct (Z.gtb_spec x y) as [H|H]
  end.

(** ** binary32 literals *)

(** [0.1f] is [0x3DCCCCCD] and [1.5f] is [0x3FC00000]. *)
Lemma lit_tenth : f_lit 1 10 = S754_finite false 13421773 (-27).
Proof. reflexivity. Qed.

Lemma lit_three_halves : f_lit 3 2 = S754_finite false 12582912 (-23).
Proof. reflexivity. Qed.

Lemma lit_zero_one :
  (f_zero : spec_float) = S754_zero false /\
  (f_one : spec_float) = S754_finite false 8388608 (-23).
Proof. split; reflexivity. Qed.

(** ** Comparisons of binary32 *)

Lemma SFleb_not_gt (x y : spec_float) : SFleb x y = true -> SFltb y x = false.
Proof.
  unfold SFleb, SFltb.
  destruct x as [sx | sx | | sx mx ex], y as [sy | sy | | sy my ey];
    simpl; try done;
    try (destruct sx; done); try (destruct sy; done);
    try (destruct sx, sy; done).
  destruct sx, sy; try done;
    rewrite (Z.compare_antisym ex ey);
    destruct (ex ?= ey); simpl; try done;
    pose proof (Pos.compare_cont_antisym mx my Eq) as E; simpl in E;
    rewrite <- E;
    destruct (Pos.compare_cont Eq mx my); done.
Qed.

Section AdjustFacts.
Context {F : Type} `{Arith F}.
Implicit Types (a : EmotionProbabilityAdjuster F) (v : list F).

Lemma boost_length a v : length (boost a v) = length v.
Proof. unfold boost. case_match; [apply length_alter | done]. Qed.

(** The boosted copy, element by element, for an index that is not
    negative. *)
Lemma boost_lookup a v (i : nat) :
  0 <= neutralIndex a < 2 ^ 31 ->
  boost a v !! i =
    if decide (i = Z.to_nat (neutralIndex a))
    then (fun p => f_mul p (boostFactor a)) <$> v !! i
    else v !! i.
Proof.
  intros Hn. unfold boost. rewrite size_t_of_int_nonneg by done.
  case_gtb Hgt.
  - case_decide as Hi.
    + subst i. apply list_lookup_alter_eq.
    + apply list_lookup_alter_ne. congruence.
  - case_decide as Hi; [|done]. subst i.
    rewrite (lookup_ge_None_2 v); [done | lia].
Qed.

(** A negative index is compared as a huge [size_t]: no vector is long
    enough and the boost is skipped. *)
Lemma boost_negative a v :
  int_range (neutralIndex a) ->
  neutralIndex a < 0 ->
  Z.of_nat (length v) < 2 ^ 63 ->
  boost a v = v.
Proof.
  intros [Hlo _] Hneg Hv. unfold boost.
  pose proof (size_t_of_int_neg (neutralIndex a)).
  case_gtb Hgt; [lia | done].
Qed.

Lemma adjust_positive a v :
  f_ltb f_zero (accumulate (boost a v)) = true ->
  adjust a v = (fun p => f_div p (accumulate (boost a v))) <$> boost a v.
Proof. intros Hs. unfold adjust. by rewrite Hs. Qed.

Lemma adjust_not_positive a v :
  f_ltb f_zero (accumulate (boost a v)) = false ->
  adjust a v = boost a v.
Proof. intros Hs. unfold adjust. by rewrite Hs. Qed.

Lemma adjust_length a v : length (adjust a v) = length v.
Proof.
  unfold adjust. case_match.
  - by rewrite length_fmap, boost_length.
  - apply boost_length.
Qed.

Lemma adjust_nonempty a v : v <> [] -> adjust a v <> [].
Proof.
  intros Hv Ha. apply (f_equal length) in Ha.
  rewrite adjust_length in Ha. by destruct v.
Qed.
End AdjustFacts.

(** C1: [adjust] returns a copy of its input of the same length in which
    the element at [neutralIndex] is multiplied by [boostFactor] exactly
    when that element exists; the sum is the binary32 sum of the elements
    of the boosted copy, added from left to right starting from [0.0f];
    when the sum is [> 0] every element is divided by it, and when the sum
    is [<= 0] (as for the empty input), or is not greater than zero for
    another reason (a NaN), the boosted copy is returned as it is.
    [adjust] is a total function: there is no error case.  The operations
    are spelled out as the binary32 ones ([SFmul 24 128] and so on). *)
Theorem adjust_boost_then_normalize
  (a : EmotionProbabilityAdjuster spec_float) (probabilities : list spec_float) :
  0 <= neutralIndex a < 2 ^ 31 ->
  exists boosted : list spec_float,
    length boosted = length probabilities /\
    (forall i : nat,
       boosted !! i =
         if decide (i = Z.to_nat (neutralIndex a))
         then (fun p => SFmul 24 128 p (boostFactor a)) <$> probabilities !! i
         else probabilities !! i) /\
    let sum := foldl (SFadd 24 128) (S754_zero false) boosted in
    (SFltb (S754_zero false) sum = true ->
       adjust a probabilities = (fun p => SFdiv 24 128 p sum) <$> boosted) /\
    (SFleb sum (S754_zero false) = true -> adjust a probabilities = boosted) /\
    (SFltb (S754_zero false) sum = false -> adjust a probabilities = boosted) /\
    adjust a [] = [].
Proof.
  intros Hn. exists (boost a probabilities).
  split; [apply boost_length|].
  split; [intros i; exact (boost_lookup a probabilities i Hn)|].
  intros sum.
  split; [intros Hgt; exact (adjust_positive a probabilities Hgt)|].
  split; [|split; [|apply nil_length_inv, adjust_length]].
  - intros Hle. apply adjust_not_positive.
    exact (SFleb_not_gt _ _ Hle).
  - intros Hgt. exact (adjust_not_positive a probabilities Hgt).
Qed.

(** The driver's adjuster ([boostFactor] 2, [neutralIndex] 3) on four
    quarters: [0.2f, 0.2f, 0.2f, 0.4f]. *)
Lemma adjust_boost_then_normalize_witness :
  adjust (newAdjuster (Some (f_lit 2 1)) None)
         (replicate 4 (f_lit 1 4) : list spec_float)
  = [S754_finite false 13421773 (-26); S754_finite false 13421773 (-26);
     S754_finite false 13421773 (-26); S754_finite false 13421773 (-25)].
Proof.
  destruct (adjust_boost_then_normalize
              (newAdjuster (Some (f_lit 2 1)) None)
              (replicate 4 (f_lit 1 4)))
    as (boosted & _ & Hlook & Hpos & _).
  { unfold newAdjuster, default_neutralIndex. simpl. lia. }
  assert (boosted = [S754_finite false 8388608 (-25);
                     S754_finite false 8388608 (-25);
                     S754_finite false 8388608 (-25);
                     S754_finite false 8388608 (-24)]) as ->.
  { apply list_eq. intros i. rewrite Hlook.
    destruct i as [|[|[|[|i]]]]; reflexivity. }
  rewrite Hpos; reflexivity.
Defined.

Section EmaFacts.
Context {F : Type} `{Arith F}.
Implicit Types (new_probs ema_state : list F) (alpha : F).

(** The loop from [i] on stays in range when [ema_state] is at least as
    long as [new_probs]: it rewrites the indices [i .. i+n-1] and nothing
    else. *)
Lemma ema_loop_in_range n : forall i new_probs ema_state alpha,
  (i + n <= length new_probs)%nat ->
  (i + n <= length ema_state)%nat ->
  exists r,
    ema_loop n i new_probs ema_state alpha = Ret r /\
    length r = length ema_state /\
    forall j : nat,
      r !! j =
        if decide (i <= j < i + n)%nat
        then match new_probs !! j, ema_state !! j with
             | Some x, Some e => Some (ema_update alpha x e)
             | _, _ => None
             end
        else ema_state !! j.
Proof.
  induction n as [|n IH]; intros i new_probs ema_state alpha Hnew Hema.
  - exists ema_state. split; [done|]. split; [done|].
    intros j. case_decide; [lia | done].
  - simpl. unfold ema_step.
    destruct (lookup_lt_is_Some_2 new_probs i) as [x Hx]; [lia|].
    destruct (lookup_lt_is_Some_2 ema_state i) as [e He]; [lia|].
    rewrite Hx, He. simpl.
    destruct (IH (S i) new_probs (<[i := ema_update alpha x e]> ema_state)
                alpha) as (r & Hr & Hlen & Hlook).
    { lia. }
    { rewrite length_insert. lia. }
    exists r. split; [exact Hr|].
    split; [by rewrite Hlen, length_insert|].
    intros j. rewrite Hlook.
    destruct (decide (j = i)) as [->|Hji].
    + rewrite decide_False by lia. rewrite decide_True by lia.
      rewrite Hx, He. apply list_lookup_insert_eq.
      apply lookup_lt_is_Some_1. by eexists.
    + rewrite list_lookup_insert_ne by done.
      destruct (decide (S i <= j < S i + n)%nat).
      * rewrite decide_True by lia. done.
      * rewrite decide_False by lia. done.
Qed.

(** The loop runs out of the range of [ema_state] when [new_probs] is
    longer. *)
Lemma ema_loop_out_of_range n : forall i new_probs ema_state alpha,
  (i + n <= length new_probs)%nat ->
  (i <= length ema_state < i + n)%nat ->
  ema_loop n i new_probs ema_state alpha = OutOfRange.
Proof.
  induction n as [|n IH]; intros i new_probs ema_state alpha Hnew Hema.
  - lia.
  - simpl. unfold ema_step.
    destruct (lookup_lt_is_Some_2 new_probs i) as [x Hx]; [lia|].
    rewrite Hx.
    destruct (ema_state !! i) as [e|] eqn:He; [|done]. simpl.
    apply lookup_lt_Some in He.
    apply IH; [lia|]. rewrite length_insert. lia.
Qed.

Lemma applyEma_seed new_probs alpha :
  applyEma new_probs [] alpha = Ret (new_probs, new_probs).
Proof. done. Qed.

(** After the seeding call, with an observation that is no longer than
    the state. *)
Lemma applyEma_overlap new_probs ema_state alpha :
  ema_state <> [] ->
  (length new_probs <= length ema_state)%nat ->
  exists r,
    applyEma new_probs ema_state alpha = Ret (r, r) /\
    length r = length ema_state /\
    forall j : nat,
      r !! j =
        match new_probs !! j, ema_state !! j with
        | Some x, Some e => Some (ema_update alpha x e)
        | _, _ => ema_state !! j
        end.
Proof.
  intros Hne Hlen.
  destruct (ema_loop_in_range (length new_probs) 0 new_probs ema_state alpha)
    as (r & Hr & Hlr & Hlook); [lia | lia |].
  exists r. split.
  - unfold applyEma. destruct ema_state; [done|]. by rewrite Hr.
  - split; [done|]. intros j. rewrite Hlook.
    case_decide as Hj.
    + destruct (lookup_lt_is_Some_2 new_probs j) as [x ->]; [lia|].
      destruct (lookup_lt_is_Some_2 ema_state j) as [e ->]; [lia|]. done.
    + rewrite (lookup_ge_None_2 new_probs j) by lia. done.
Qed.

Lemma applyEma_out_of_range new_probs ema_state alpha :
  ema_state <> [] ->
  (length ema_state < length new_probs)%nat ->
  applyEma new_probs ema_state alpha = OutOfRange.
Proof.
  intros Hne Hlen. unfold applyEma. destruct ema_state as [|e l]; [done|].
  rewrite ema_loop_out_of_range; [done | lia | lia].
Qed.

(** Whenever [applyEma] returns, the returned vector is the new state;
    it is empty only if the observation or the old state is. *)
Lemma applyEma_returns new_probs ema_state alpha r s :
  applyEma new_probs ema_state alpha = Ret (r, s) ->
  r = s /\
  (ema_state = [] -> s = new_probs) /\
  (ema_state <> [] -> length s = length ema_state).
Proof.
  intros Hr. destruct ema_state as [|e l].
  - simpl in Hr. by simplify_eq.
  - destruct (decide (length new_probs <= length (e :: l))%nat) as [Hle|Hgt].
    + destruct (applyEma_overlap new_probs (e :: l) alpha)
        as (r' & Hr' & Hlen & _); [done | done |].
      rewrite Hr' in Hr. by simplify_eq.
    + rewrite applyEma_out_of_range in Hr; [done | done | lia].
Qed.
End EmaFacts.

(** C5: on the first call ([ema_state] empty) [applyEma] copies the
    observation into the state and returns it, whatever [alpha] is: nothing
    is blended.  Seeding with [[0.1, 0.1, 0.1, 0.7]] gives that state. *)
Theorem applyEma_first_call_is_identity :
  (forall (new_probs : list spec_float) (alpha : spec_float),
     applyEma new_probs [] alpha = Ret (new_probs, new_probs)) /\
  (forall alpha : spec_float,
     applyEma [f_lit 1 10; f_lit 1 10; f_lit 1 10; f_lit 7 10] [] alpha
     = Ret ([f_lit 1 10; f_lit 1 10; f_lit 1 10; f_lit 7 10],
            [f_lit 1 10; f_lit 1 10; f_lit 1 10; f_lit 7 10])).
Proof. split; intros; apply applyEma_seed. Qed.

(** C4, the part the code does: with an observation no longer than the
    state, exactly the common indices are blended and the rest of the state
    is kept. *)
Lemma applyEma_blends_overlap
  (new_probs ema_state : list spec_float) (alpha : spec_float) :
  ema_state <> [] ->
  (length new_probs <= length ema_state)%nat ->
  exists r,
    applyEma new_probs ema_state alpha = Ret (r, r) /\
    length r = length ema_state /\
    (forall (i : nat) x e,
       new_probs !! i = Some x -> ema_state !! i = Some e ->
       r !! i = Some (f_add (f_mul alpha x) (f_mul (f_sub f_one alpha) e))) /\
    (forall i : nat,
       (length new_probs <= i)%nat -> r !! i = ema_state !! i).
Proof.
  intros Hne Hlen.
  destruct (applyEma_overlap new_probs ema_state alpha Hne Hlen)
    as (r & Hr & Hlr & Hlook).
  exists r. repeat split; try done.
  - intros i x e Hx He. by rewrite Hlook, Hx, He.
  - intros i Hi. rewrite Hlook.
    by rewrite (lookup_ge_None_2 new_probs i) by done.
Qed.

(** alpha=0.5, state [[1,0]], observation [[0,1]] gives [[0.5,0.5]]. *)
Lemma applyEma_half_example :
  applyEma [f_lit 0 1; f_lit 1 1] [f_lit 1 1; f_lit 0 1] (f_lit 1 2)
  = Ret ([f_lit 1 2; f_lit 1 2], [f_lit 1 2; f_lit 1 2] : list spec_float).
Proof. vm_compute. reflexivity. Qed.

(** C4, where the code departs from it: the loop of [applyEma] runs over
    all of [new_probs] and indexes [ema_state] without a bound check, so an
    observation longer than a seeded state reads and writes [ema_state]
    past its end. *)
Theorem applyEma_longer_observation_out_of_range
  (new_probs ema_state : list spec_float) (alpha : spec_float) :
  ema_state <> [] ->
  (length ema_state < length new_probs)%nat ->
  applyEma new_probs ema_state alpha = OutOfRange.
Proof. apply applyEma_out_of_range. Qed.

Lemma applyEma_longer_observation_out_of_range_witness :
  applyEma [f_lit 0 1; f_lit 1 1; f_lit 1 2] [f_lit 1 1; f_lit 0 1]
           (f_lit 1 2 : spec_float)
  = OutOfRange.
Proof.
  apply applyEma_longer_observation_out_of_range.
  - discriminate.
  - simpl. lia.
Defined.

Section MedianFacts.
Context {F : Type} `{Arith F} {N : NthElement F}.
Implicit Types (history : list (list F)) (col medians : list F).

Lemma insert_sorted_length x col :
  length (insert_sorted x col) = S (length col).
Proof.
  induction col as [|y col IH]; simpl; [done|].
  case_match; simpl; [done | by rewrite IH].
Qed.

Lemma sort_length col : length (sort col) = length col.
Proof.
  induction col as [|x col IH]; simpl; [done|].
  by rewrite insert_sorted_length, IH.
Qed.

Lemma insert_sorted_Permutation x col : insert_sorted x col ≡ₚ x :: col.
Proof.
  induction col as [|y col IH]; simpl; [done|].
  case_match; [done|]. rewrite IH. apply Permutation_swap.
Qed.

Lemma sort_Permutation col : sort col ≡ₚ col.
Proof.
  induction col as [|x col IH]; simpl; [done|].
  by rewrite insert_sorted_Permutation, IH.
Qed.


Lemma median_step_length history medians c :
  length (median_step history medians c) = length medians.
Proof.
  unfold median_step. case_match; [done|]. apply length_insert.
Qed.

Lemma median_loop history n : forall (i : nat) medians,
  (i + n <= length medians)%nat ->
  length (foldl (median_step history) medians (seq i n)) = length medians /\
  forall c : nat,
    foldl (median_step history) medians (seq i n) !! c =
      if decide (i <= c < i + n)%nat
      then match column history c with
           | [] => medians !! c
           | col => Some (median_of col)
           end
      else medians !! c.
Proof.
  induction n as [|n IH]; intros i medians Hlen; simpl.
  - split; [done|]. intros c. case_decide; [lia | done].
  - destruct (IH (S i) (median_step history medians i)) as [Hl Hlook].
    { rewrite median_step_length. lia. }
    split; [by rewrite Hl, median_step_length|].
    intros c. rewrite Hlook.
    destruct (decide (c = i)) as [->|Hci].
    + rewrite decide_False by lia. rewrite decide_True by lia.
      unfold median_step, median_of.
      destruct (column history i) as [|x col] eqn:Hcol; [done|].
      apply list_lookup_insert_eq. lia.
    + assert (median_step history medians i !! c = medians !! c) as Hother.
      { unfold median_step. case_match; [done|].
        by apply list_lookup_insert_ne. }
      destruct (decide (S i <= c < S i + n)%nat).
      * rewrite decide_True by lia. by rewrite Hother.
      * rewrite decide_False by lia. done.
Qed.

Lemma medianFromHistory_length front history :
  length (medianFromHistory (front :: history)) = length front.
Proof.
  unfold medianFromHistory.
  destruct (median_loop (front :: history) (length front) 0
              (replicate (length front) f_zero)) as [Hl _].
  { rewrite length_replicate. lia. }
  by rewrite Hl, length_replicate.
Qed.

Lemma medianFromHistory_lookup front history (c : nat) :
  medianFromHistory (front :: history) !! c =
    if decide (c < length front)%nat
    then Some (median_of (column (front :: history) c))
    else None.
Proof.
  unfold medianFromHistory.
  destruct (median_loop (front :: history) (length front) 0
              (replicate (length front) f_zero)) as [_ Hlook].
  { rewrite length_replicate. lia. }
  rewrite Hlook. case_decide as Hc.
  - rewrite decide_True by lia.
    destruct (column (front :: history) c) as [|x col] eqn:Hcol; [|done].
    exfalso. unfold column in Hcol. simpl in Hcol.
    destruct (lookup_lt_is_Some_2 front c) as [y Hy]; [lia|].
    by rewrite Hy in Hcol.
  - rewrite decide_False by lia. apply lookup_ge_None_2.
    rewrite length_replicate. lia.
Qed.

Lemma medianFromHistory_nonempty front history :
  front <> [] -> medianFromHistory (front :: history) <> [].
Proof.
  intros Hf Hm. apply (f_equal length) in Hm.
  rewrite medianFromHistory_length in Hm. by destruct front.
Qed.
End MedianFacts.

Lemma SFltb_asym (x y : spec_float) : SFltb x y = true -> SFltb y x = false.
Proof.
  intros Hlt. apply SFleb_not_gt. revert Hlt. unfold SFltb, SFleb.
  by destruct (SFcompare x y) as [[]|].
Qed.

(** ** [operator<] and the element selected by [std::nth_element] *)

Section OrderingFacts.
Context {F : Type} `{Arith F}.
Implicit Types (col l s : list F).

Lemma strict_weak_order_mono col col' :
  (forall x, x ∈ col' -> x ∈ col) ->
  strict_weak_order col -> strict_weak_order col'.
Proof.
  intros Hsub [Hasym Htrans]. split.
  - intros x y Hx Hy. apply Hasym; by apply Hsub.
  - intros x y z Hx Hy Hz. apply Htrans; by apply Hsub.
Qed.

Lemma strict_weak_order_irrefl col x :
  strict_weak_order col -> x ∈ col -> f_ltb x x = false.
Proof.
  intros [Hasym _] Hx. destruct (f_ltb x x) eqn:Hxx; [|done].
  by rewrite (Hasym x x Hx Hx Hxx) in Hxx.
Qed.

Lemma ascending_cons x l :
  ascending (x :: l) <-> Forall (fun y => f_ltb y x = false) l /\ ascending l.
Proof.
  split.
  - intros Ha. split.
    + apply Forall_lookup. intros j y Hy.
      apply (Ha 0%nat (S j) x y); [lia | done | done].
    + intros i j a b Hij Hi Hj.
      apply (Ha (S i) (S j) a b); [lia | done | done].
  - intros [Hx Ha] i j a b Hij Hi Hj.
    destruct j as [|j]; [lia|]. simpl in Hj.
    destruct i as [|i]; simpl in Hi.
    + simplify_eq. rewrite Forall_lookup in Hx. by apply (Hx j).
    + apply (Ha i j a b); [lia | done | done].
Qed.

Lemma ascending_nil : ascending (@nil F).
Proof. intros i j x y _ Hi. by rewrite lookup_nil in Hi. Qed.

Lemma ascending_check l : ascending l -> ascendingb l = true.
Proof.
  induction l as [|x l IH]; [done|].
  intros [Hx Ha]%ascending_cons. simpl.
  rewrite (IH Ha), andb_true_r.
  clear IH Ha. induction Hx as [|y l Hy _ IH]; [done|].
  simpl. by rewrite Hy, IH.
Qed.

Lemma insert_sorted_ascending x l :
  strict_weak_order (x :: l) -> ascending l -> ascending (insert_sorted x l).
Proof.
  induction l as [|y l IH]; intros Hswo Ha; simpl.
  - apply ascending_cons. split; [constructor | apply ascending_nil].
  - pose proof Ha as [Hy Hl]%ascending_cons.
    destruct Hswo as [Hasym Htrans].
    destruct (f_ltb x y) eqn:Hxy.
    + assert (f_ltb y x = false) as Hyx.
      { apply Hasym; [left | right; left | done]. }
      apply ascending_cons. split; [|done].
      constructor; [done|].
      rewrite Forall_forall in Hy |- *. intros z Hz.
      apply (Htrans x y z); [left | right; left | by do 2 right | done |].
      by apply Hy.
    + apply ascending_cons. split.
      * rewrite insert_sorted_Permutation. by constructor.
      * apply IH; [|done].
        apply (strict_weak_order_mono (x :: y :: l)); [|done].
        intros z [->|Hz]%elem_of_cons; [left | by do 2 right].
Qed.

Lemma sort_ascending col : strict_weak_order col -> ascending (sort col).
Proof.
  induction col as [|x col IH]; intros Hswo; simpl; [apply ascending_nil|].
  apply insert_sorted_ascending.
  - apply (strict_weak_order_mono (x :: col)); [|done].
    intros z [->|Hz]%elem_of_cons; [left|right].
    by rewrite <- (sort_Permutation col).
  - apply IH. apply (strict_weak_order_mono (x :: col)); [|done].
    intros z Hz. by right.
Qed.

(** Sorting the vector is one way to meet the postcondition. *)
Lemma by_sorting_spec : nth_element_spec by_sorting.
Proof.
  split.
  - intros col nth. apply sort_Permutation.
  - intros col nth Hswo. exists (sort col).
    split; [apply sort_Permutation|]. split; [by apply sort_ascending | done].
Qed.

Section Selection.
Context {N : NthElement F} (HN : nth_element_spec N).

Lemma nth_element_length col (k : nat) :
  length (nth_element col k) = length col.
Proof. destruct HN as [Hperm _]. by rewrite (Hperm col k). Qed.

Lemma median_of_lookup col :
  col <> [] ->
  nth_element col (length col / 2)%nat !! (length col / 2)%nat
  = Some (median_of col).
Proof.
  intros Hcol. unfold median_of.
  destruct (nth_lookup_or_length (nth_element col (length col / 2)%nat)
              (length col / 2)%nat f_zero) as [Hk|Hk]; [done|].
  rewrite nth_element_length in Hk. destruct col; [done|].
  simpl length in Hk. exfalso. revert Hk. generalize (length col).
  intros n Hn. pose proof (Nat.div_lt (S n) 2). lia.
Qed.

(** The value selected is a value of the column, whatever the column
    holds. *)
Lemma median_of_elem col : col <> [] -> median_of col ∈ col.
Proof.
  intros Hcol. pose proof (median_of_lookup col Hcol) as Hk.
  apply list_elem_of_lookup_2 in Hk.
  destruct HN as [Hperm _]. by rewrite (Hperm col _) in Hk.
Qed.

(** On a strict weak ordering it is the value at [size / 2] of an
    ascending arrangement of the column. *)
Lemma median_of_sorted col :
  col <> [] -> strict_weak_order col ->
  exists sorted,
    sorted ≡ₚ col /\ ascending sorted /\
    sorted !! (length col / 2)%nat = Some (median_of col).
Proof.
  intros Hcol Hswo. destruct HN as [_ Hsel].
  destruct (Hsel col (length col / 2)%nat Hswo) as (s & Hs & Ha & Hk).
  exists s. split; [done|]. split; [done|].
  rewrite <- Hk. by apply median_of_lookup.
Qed.

(** The element selected is the one every ascending arrangement of the
    column has at that index, when there is only one such element. *)
Lemma nth_element_selects col (k : nat) v d :
  strict_weak_order col ->
  Forall (fun s => ascendingb s = true -> s !! k = Some v)
         (permutations col) ->
  nth k (nth_element col k) d = v.
Proof.
  intros Hswo Hall. destruct HN as [_ Hsel].
  destruct (Hsel col k Hswo) as (s & Hs & Ha & Hk).
  rewrite Forall_forall in Hall.
  apply nth_lookup_Some with (d := d). rewrite Hk. apply Hall.
  - by apply permutations_Permutation.
  - by apply ascending_check.
Qed.
End Selection.
End OrderingFacts.

(** ** The order of binary32 *)

Lemma SFltb_key (x y : spec_float) :
  x <> S754_nan -> y <> S754_nan ->
  SFltb x y = true <-> key_lt (order_key x) (order_key y).
Proof.
  intros Hx Hy. unfold SFltb, key_lt.
  destruct x as [sx | sx | | sx mx ex], y as [sy | sy | | sy my ey];
    try done; simpl;
    try (destruct sx; simpl; split; [done | lia]);
    try (destruct sy; simpl; split; [done | lia]);
    try (destruct sx, sy; simpl; split; (done || lia)).
  destruct sx, sy; simpl; try (split; (done || lia));
    change (Pos.compare_cont Eq mx my) with (mx ?= my)%positive;
    destruct (Z.compare_spec ex ey); simpl;
    try destruct (Pos.compare_spec mx my); simpl;
    split; (done || lia).
Qed.

Lemma SFltb_key_false (x y : spec_float) :
  x <> S754_nan -> y <> S754_nan ->
  SFltb x y = false <-> ~ key_lt (order_key x) (order_key y).
Proof.
  intros Hx Hy. rewrite <- (SFltb_key x y Hx Hy).
  by destruct (SFltb x y).
Qed.

(** Without a NaN, [operator<] of [float] is a strict weak ordering. *)
Lemma nan_free_strict_weak_order (col : list spec_float) :
  S754_nan ∉ col -> strict_weak_order col.
Proof.
  intros Hnan.
  assert (forall x, x ∈ col -> x <> S754_nan) as Hne by (by intros x Hx ->).
  split.
  - intros x y _ _. apply SFltb_asym.
  - intros x y z Hx%Hne Hy%Hne Hz%Hne.
    change (@f_ltb spec_float binary32) with SFltb.
    rewrite !SFltb_key_false by done. unfold key_lt.
    destruct (order_key x) as [[x1 x2] x3], (order_key y) as [[y1 y2] y3],
      (order_key z) as [[z1 z2] z3]. simpl. lia.
Qed.

(** ** The median of concrete histories *)

Lemma column_front_nonempty {F : Type} (front : list F) rest (c : nat) :
  (c < length front)%nat -> column (front :: rest) c <> [].
Proof.
  intros Hc Hcol. unfold column in Hcol. simpl in Hcol.
  destruct (lookup_lt_is_Some_2 front c Hc) as [y Hy].
  by rewrite Hy in Hcol.
Qed.

Lemma medianFromHistory_eq {F : Type} `{Arith F} {N : NthElement F}
  (front : list F) rest (medians : list F) :
  length medians = length front ->
  (forall (c : nat) m, medians !! c = Some m ->
     median_of (column (front :: rest) c) = m) ->
  medianFromHistory (front :: rest) = medians.
Proof.
  intros Hlen Hm. apply list_eq. intros c.
  rewrite medianFromHistory_lookup. case_decide as Hc.
  - destruct (lookup_lt_is_Some_2 medians c) as [m Hmc]; [lia|].
    rewrite Hmc. f_equal. by apply Hm.
  - symmetry. apply lookup_ge_None_2. lia.
Qed.

(** The value selected on a column whose arrangements are listed. *)
Lemma nth_element_selects_at {F : Type} `{Arith F} {N : NthElement F}
  (HN : nth_element_spec N) (col : list F) (k : nat) (perms : list (list F))
  v :
  strict_weak_order col ->
  (length col / 2)%nat = k ->
  permutations col = perms ->
  Forall (fun s => ascendingb s = true -> s !! k = Some v) perms ->
  median_of col = v.
Proof.
  intros Hswo <- <- Hall. unfold median_of.
  by apply (nth_element_selects HN).
Qed.

Ltac nan_free :=
  let Hin := fresh in
  intros Hin;
  repeat (apply elem_of_cons in Hin as [Hin|Hin]; [discriminate|]);
  by apply elem_of_nil in Hin.

(** Settles [median_of col = v] on a concrete binary32 column without NaN
    by going through the arrangements of the column. *)
Ltac select_median HN :=
  match goal with
  | |- median_of ?col = ?v =>
      let col' := eval vm_compute in col in
      let k := eval vm_compute in (length col' / 2)%nat in
      let perms := eval vm_compute in (permutations col') in
      change (median_of col' = v);
      apply (nth_element_selects_at HN col' k perms v);
      [ apply nan_free_strict_weak_order; nan_free
      | vm_compute; reflexivity
      | vm_compute; reflexivity
      | repeat constructor;
        let Ha := fresh in
        intros Ha; first [reflexivity | vm_compute in Ha; discriminate] ]
  end.

(** Settles [medianFromHistory history = medians] on a concrete binary32
    history without NaN. *)
Ltac medians_by_enumeration HN :=
  match goal with
  | |- medianFromHistory ?h = ?m =>
      let h' := eval vm_compute in h in
      let m' := eval vm_compute in m in
      change (medianFromHistory h' = m')
  end;
  apply medianFromHistory_eq; [reflexivity|];
  let c := fresh "c" in let m := fresh "m" in let Hm := fresh "Hm" in
  intros c m Hm;
  repeat (destruct c as [|c];
          [injection Hm as <-; select_median HN|]);
  discriminate Hm.




Section PushFacts.
Context {A : Type}.
Implicit Types (h pushed : list A) (v : A).

Lemma push_length cap h v :
  0 <= cap < 2 ^ 31 ->
  length (push cap h v)
  = if decide (Z.of_nat (length h) < cap) then S (length h) else length h.
Proof.
  intros Hcap. unfold push. rewrite size_t_of_int_nonneg by done.
  rewrite length_app. change (length [v]) with 1%nat.
  case_gtb Hgt.
  - rewrite decide_False by lia. rewrite length_drop, length_app. simpl. lia.
  - rewrite decide_True by lia. rewrite length_app. simpl. lia.
Qed.

(** One push keeps a buffer within its capacity. *)
Lemma push_within_capacity cap h v :
  0 <= cap < 2 ^ 31 ->
  Z.of_nat (length h) <= cap ->
  Z.of_nat (length (push cap h v)) <= cap.
Proof. intros Hcap Hh. rewrite push_length by done. case_decide; lia. Qed.

(** The buffer after the pushes [pushed] into an empty one. *)
(** A negative capacity is compared as a huge [size_t]: nothing is ever
    dropped. *)
Lemma pushes_negative_capacity cap h pushed :
  - 2 ^ 31 <= cap < 0 ->
  Z.of_nat (length h + length pushed) < 2 ^ 63 ->
  foldl (push cap) h pushed = h ++ pushed.
Proof.
  intros Hcap. pose proof (size_t_of_int_neg cap Hcap) as Hbig.
  revert h. induction pushed as [|v pushed IH]; intros h Hlen.
  - by rewrite app_nil_r.
  - simpl. assert (push cap h v = h ++ [v]) as ->.
    { unfold push. rewrite length_app. change (length [v]) with 1%nat.
      simpl in Hlen. case_gtb Hgt; [lia | done]. }
    rewrite IH.
    + by rewrite <- app_assoc.
    + rewrite length_app. simpl in *. lia.
Qed.

Lemma pushes_from_empty cap pushed :
  0 <= cap < 2 ^ 31 ->
  foldl (push cap) [] pushed = drop (length pushed - Z.to_nat cap) pushed.
Proof.
  intros Hcap. induction pushed as [|v pushed IH] using rev_ind; [done|].
  rewrite foldl_app. simpl. rewrite IH. unfold push.
  rewrite size_t_of_int_nonneg by done.
  rewrite !length_app, length_drop. change (length [v]) with 1%nat.
  case_gtb Hgt.
  - rewrite skipn_app, drop_drop, length_drop, drop_app.
    f_equal; f_equal; lia.
  - rewrite drop_app.
    replace (length pushed + 1 - Z.to_nat cap)%nat with 0%nat by lia.
    replace (length pushed - Z.to_nat cap)%nat with 0%nat by lia.
    done.
Qed.
End PushFacts.

(** C2: pushing any sequence of items into an empty history buffer of
    capacity [cap] leaves at most [cap] items after every push, and after
    [cap + k] pushes, [k > 0], the buffer holds exactly the last [cap]
    items pushed, oldest first. *)
Theorem history_keeps_last_capacity_items
  {A : Type} (cap : Z) (pushed : list A) :
  0 <= cap < 2 ^ 31 ->
  Z.of_nat (length (foldl (push cap) [] pushed)) <= cap /\
  forall k : nat,
    (0 < k)%nat ->
    Z.of_nat (length pushed) = cap + Z.of_nat k ->
    foldl (push cap) [] pushed = drop k pushed /\
    Z.of_nat (length (drop k pushed)) = cap.
Proof.
  intros Hcap. rewrite pushes_from_empty by done. split.
  - rewrite length_drop. lia.
  - intros k Hk Hlen. split.
    + f_equal. lia.
    + rewrite length_drop. lia.
Qed.

Lemma history_keeps_last_capacity_items_witness :
  foldl (push 3) [] [1; 2; 3; 4; 5]%nat = drop 2 [1; 2; 3; 4; 5]%nat.
Proof.
  refine (proj1 (proj2 (history_keeps_last_capacity_items
                          3 [1; 2; 3; 4; 5]%nat _) 2%nat _ _)).
  - lia.
  - lia.
  - reflexivity.
Defined.

Section CycleFacts.
Context {F : Type} `{Arith F} {N : NthElement F}.
Implicit Types (cfg : Config F) (st : State F) (probabilities : list F).

Lemma cycle_skips_empty cfg st : cycle cfg st [] = Ret (st, None).
Proof. done. Qed.

(** What an iteration that reaches the pipeline and returns has done. *)
Lemma cycle_processed cfg st probabilities st' d :
  probabilities <> [] ->
  cycle cfg st probabilities = Ret (st', d) ->
  applyEma (adjust (adjuster cfg) probabilities) (ema_state st)
           (ema_alpha cfg)
  = Ret (ema_state st', ema_state st') /\
  history st' = push (maxHistory cfg) (history st) (ema_state st') /\
  d = Some (display (medianFromHistory (history st')) (ema_state st')).
Proof.
  intros Hp Hc. unfold cycle in Hc.
  destruct probabilities as [|p ps]; [done|].
  destruct (applyEma _ _ _) as [[r s]|] eqn:Hema; [|done].
  destruct (applyEma_returns _ _ _ _ _ Hema) as (-> & _).
  simpl in Hc. by simplify_eq.
Qed.

(** An iteration returns when the state is not seeded yet or the
    observation is no longer than the state. *)
(** An iteration from its parts. *)
Lemma cycle_step cfg st probabilities ema_probs ema_state' history'
  median_probs d :
  probabilities <> [] ->
  applyEma (adjust (adjuster cfg) probabilities) (ema_state st) (ema_alpha cfg)
  = Ret (ema_probs, ema_state') ->
  push (maxHistory cfg) (history st) ema_probs = history' ->
  medianFromHistory history' = median_probs ->
  display median_probs ema_probs = d ->
  cycle cfg st probabilities = Ret (mkState history' ema_state', Some d).
Proof.
  intros Hp Hema <- <- <-. unfold cycle. destruct probabilities; [done|].
  by rewrite Hema.
Qed.

Lemma run_cons cfg st probabilities frames st' d st'' ds :
  cycle cfg st probabilities = Ret (st', d) ->
  run cfg st' frames = Ret (st'', ds) ->
  run cfg st (probabilities :: frames) = Ret (st'', d :: ds).
Proof. intros Hc Hr. simpl. rewrite Hc. simpl. by rewrite Hr. Qed.

Lemma cycle_returns cfg st probabilities :
  ema_state st = [] \/ (length probabilities <= length (ema_state st))%nat ->
  exists st' d, cycle cfg st probabilities = Ret (st', d).
Proof.
  intros Hlen. unfold cycle. destruct probabilities as [|p ps]; [by eauto|].
  destruct (decide (ema_state st = [])) as [Hs|Hs].
  - rewrite Hs. simpl. by eauto.
  - destruct Hlen as [?|Hlen]; [done|].
    destruct (applyEma_overlap (adjust (adjuster cfg) (p :: ps))
                (ema_state st) (ema_alpha cfg)) as (r & -> & _).
    { done. }
    { by rewrite adjust_length. }
    simpl. by eauto.
Qed.

Lemma push_nonempty {A} cap (h : list A) v :
  1 <= cap < 2 ^ 31 -> push cap h v <> [].
Proof.
  intros Hcap Hpush. apply (f_equal length) in Hpush.
  rewrite push_length in Hpush by lia.
  case_decide; [done|]. simpl in Hpush. lia.
Qed.

Lemma push_Forall {A} (P : A -> Prop) cap (h : list A) v :
  Forall P h -> P v -> Forall P (push cap h v).
Proof.
  intros Hh Hv. unfold push.
  assert (Forall P (h ++ [v])) by (apply Forall_app; auto).
  case_match; [by apply Forall_drop | done].
Qed.

(** The smoothed vector of a processed frame is not empty. *)
Lemma cycle_ema_nonempty cfg st probabilities st' d :
  probabilities <> [] ->
  cycle cfg st probabilities = Ret (st', d) ->
  ema_state st' <> [].
Proof.
  intros Hp Hc.
  destruct (cycle_processed _ _ _ _ _ Hp Hc) as (Hema & _).
  destruct (applyEma_returns _ _ _ _ _ Hema) as (_ & Hseed & Hlen).
  destruct (decide (ema_state st = [])) as [Hs|Hs].
  - rewrite (Hseed Hs). by apply adjust_nonempty.
  - specialize (Hlen Hs). intros Hnil. rewrite Hnil in Hlen.
    by destruct (ema_state st).
Qed.

(** No entry of the history of a reachable state is empty. *)
Lemma reachable_history_nonempty cfg st :
  reachable cfg st -> Forall (fun h => h <> []) (history st).
Proof.
  induction 1 as [|st probabilities st' d Hreach IH Hc]; [constructor|].
  destruct probabilities as [|p ps].
  - rewrite cycle_skips_empty in Hc. by simplify_eq.
  - destruct (cycle_processed cfg st (p :: ps) st' d) as (_ & -> & _);
      [done | done |].
    apply push_Forall; [done|].
    by apply (cycle_ema_nonempty cfg st (p :: ps) st' d).
Qed.
(** A run on frames of one length returns: every iteration stays in the
    range of the state. *)
Lemma run_returns cfg (n : nat) frames : forall st,
  ema_state st = [] \/ length (ema_state st) = n ->
  Forall (fun probabilities => length probabilities = n) frames ->
  exists st' ds,
    run cfg st frames = Ret (st', ds) /\ length ds = length frames.
Proof.
  induction frames as [|p frames IH]; intros st Hst Hall.
  - by exists st, [].
  - apply Forall_cons in Hall as [Hp Hall].
    destruct (cycle_returns cfg st p) as (st1 & d & Hc).
    { destruct Hst as [?|Hst]; [by left | right; lia]. }
    destruct (IH st1) as (st2 & ds & Hrun & Hlen); [|done|].
    + destruct p as [|x p].
      * rewrite cycle_skips_empty in Hc. by simplify_eq.
      * destruct (cycle_processed cfg st (x :: p) st1 d) as (Hema & _);
          [done | done |].
        destruct (applyEma_returns _ _ _ _ _ Hema) as (_ & Hseed & Hkeep).
        right. destruct (decide (ema_state st = [])) as [Hs|Hs].
        -- by rewrite (Hseed Hs), adjust_length.
        -- rewrite (Hkeep Hs). by destruct Hst.
    + exists st2, (d :: ds). simpl. rewrite Hc. simpl. rewrite Hrun. simpl.
      by rewrite Hlen.
Qed.
End CycleFacts.

(** C6: [medianFromHistory] of an empty history is the empty vector, and
    what an iteration displays is the median when that is not empty and the
    smoothed vector, unchanged, when it is (whatever [std::nth_element]
    does). *)
Theorem display_is_median_unless_empty (N : NthElement spec_float) :
  medianFromHistory ([] : list (list spec_float)) = [] /\
  forall (cfg : Config spec_float) st probabilities st' d,
    cycle cfg st probabilities = Ret (st', Some d) ->
    d = match medianFromHistory (history st') with
        | [] => ema_state st'
        | median_probs => median_probs
        end.
Proof.
  split; [done|]. intros cfg st probabilities st' d Hc.
  destruct probabilities as [|p ps].
  - rewrite cycle_skips_empty in Hc. by simplify_eq.
  - destruct (cycle_processed cfg st (p :: ps) st' (Some d))
      as (_ & _ & Hd); [done | done |].
    simplify_eq. unfold display.
    by destruct (medianFromHistory (history st')).
Qed.

Lemma display_is_median_unless_empty_witness :
  [f_lit 1 2; f_lit 1 2 : spec_float]
  = match medianFromHistory (N := by_sorting)
            [[f_lit 1 2; f_lit 1 2 : spec_float]] with
    | [] => [f_lit 1 2; f_lit 1 2]
    | median_probs => median_probs
    end.
Proof.
  refine (proj2 (display_is_median_unless_empty by_sorting)
            driver_config initial
            [f_lit 1 2; f_lit 1 2]
            (mkState [[f_lit 1 2; f_lit 1 2]] [f_lit 1 2; f_lit 1 2])
            [f_lit 1 2; f_lit 1 2] _).
  vm_compute. reflexivity.
Defined.

(** C10: an iteration whose probability vector is empty skips the pipeline;
    in an iteration that processes a vector, the smoothed vector is not
    empty and is in the history when the median is taken;
    [medianFromHistory] is not empty when the first entry of the history is
    not; so every processed iteration displays the median, and the smoothed
    vector is never displayed in its place (whatever [std::nth_element]
    does). *)
Theorem processed_cycle_displays_median (N : NthElement spec_float)
  (cfg : Config spec_float) (st : State spec_float) :
  1 <= maxHistory cfg < 2 ^ 31 ->
  reachable cfg st ->
  cycle cfg st [] = Ret (st, None) /\
  (forall (front : list spec_float) (rest : list (list spec_float)),
     front <> [] -> medianFromHistory (front :: rest) <> []) /\
  forall probabilities st' d,
    probabilities <> [] ->
    cycle cfg st probabilities = Ret (st', d) ->
    ema_state st' <> [] /\
    history st' = push (maxHistory cfg) (history st) (ema_state st') /\
    last (history st') = Some (ema_state st') /\
    medianFromHistory (history st') <> [] /\
    d = Some (medianFromHistory (history st')).
Proof.
  intros Hcap Hreach. split; [done|].
  split; [intros front rest; apply medianFromHistory_nonempty|].
  intros probabilities st' d Hp Hc.
  pose proof (cycle_ema_nonempty _ _ _ _ _ Hp Hc) as Hema.
  pose proof (reachable_history_nonempty cfg st'
                (reachable_cycle cfg st probabilities st' d Hreach Hc)) as Hall.
  destruct (cycle_processed _ _ _ _ _ Hp Hc) as (_ & Hhist & Hd).
  assert (last (history st') = Some (ema_state st')) as Hlast.
  { rewrite Hhist. unfold push.
    rewrite size_t_of_int_nonneg by lia. rewrite length_app.
    change (length [ema_state st']) with 1%nat.
    case_gtb Hgt; [|apply last_snoc].
    destruct (history st) as [|h0 hs]; [simpl in Hgt; lia|].
    simpl. rewrite drop_0. apply last_snoc. }
  assert (medianFromHistory (history st') <> []) as Hmed.
  { destruct (history st') as [|front rest] eqn:Hh.
    - exfalso. eapply (push_nonempty (maxHistory cfg));
        [exact Hcap | symmetry; exact Hhist].
    - apply medianFromHistory_nonempty. by inversion Hall. }
  repeat split; try done.
  rewrite Hd. unfold display.
  by destruct (medianFromHistory (history st')).
Qed.

Lemma processed_cycle_displays_median_witness :
  cycle (N := by_sorting) driver_config initial
    [f_lit 1 2; f_lit 1 2 : spec_float]
  = Ret (mkState [[f_lit 1 2; f_lit 1 2]] [f_lit 1 2; f_lit 1 2],
         Some [f_lit 1 2; f_lit 1 2]) /\
  Some [f_lit 1 2; f_lit 1 2 : spec_float]
  = Some (medianFromHistory (N := by_sorting) [[f_lit 1 2; f_lit 1 2]]).
Proof.
  assert (cycle (N := by_sorting) driver_config initial
            [f_lit 1 2; f_lit 1 2 : spec_float]
          = Ret (mkState [[f_lit 1 2; f_lit 1 2]] [f_lit 1 2; f_lit 1 2],
                 Some [f_lit 1 2; f_lit 1 2])) as Hc
    by (vm_compute; reflexivity).
  split; [exact Hc|].
  refine (proj2 (proj2 (proj2 (proj2 (proj2 (proj2
    (processed_cycle_displays_median by_sorting driver_config initial _ _))
    [f_lit 1 2; f_lit 1 2] _ _ _ Hc))))).
  - simpl. lia.
  - constructor.
  - discriminate.
Defined.

(** ** Exact arithmetic *)

Section ExactFacts.
Local Open Scope Qc_scope.
Implicit Types (x y s : Qc) (l v : list Qc).









End ExactFacts.




(** On a distribution of ordinary size binary32 stays within the
    tolerance. *)
Lemma adjust_within_tolerance_example :
  within_tolerance
    (accumulate (adjust (newAdjuster None None)
                   [f_lit 1 10; f_lit 1 10; f_lit 1 10; f_lit 7 10])) = true.
Proof. vm_compute. reflexivity. Qed.

(** Equality of closed terms over [Qc], component by component. *)
Ltac qc_eq :=
  vm_compute;
  repeat match goal with
         | |- @eq Qc _ _ => apply Qc_is_canon; reflexivity
         | |- _ => progress f_equal
         end.

(** C9, the counterexample: a negative boost factor is stored as it is and
    the instance computes with it. *)
Lemma negative_boostFactor_is_accepted :
  boostFactor (newAdjuster (Some (f_lit (-1) 1)) None)
  = (f_lit (-1) 1 : spec_float) /\
  adjust (newAdjuster (Some (f_lit (-1) 1)) None)
         [f_lit 1 4; f_lit 1 4; f_lit 1 4; f_lit 1 8]
  = [f_lit 2 5; f_lit 2 5; f_lit 2 5; f_lit (-1) 5 : spec_float].
Proof. vm_compute. split; reflexivity. Qed.

(** C9, as the code has it: nothing is validated.  The constructor of the
    adjuster stores every boost factor and index it is given; [applyEma]
    takes [alpha] with each call and blends with whatever value it is;
    the capacity is only compared with the size of the history: with 0 the
    entry just pushed is dropped at once, and with a negative capacity no
    entry of the history is ever dropped, however many are pushed. *)
Theorem configuration_is_not_validated :
  (forall (b : spec_float) (n : Z),
     newAdjuster (Some b) (Some n) = mkAdjuster b n) /\
  (forall alpha x e : spec_float,
     applyEma [x] [e] alpha
     = Ret ([f_add (f_mul alpha x) (f_mul (f_sub f_one alpha) e)],
            [f_add (f_mul alpha x) (f_mul (f_sub f_one alpha) e)])) /\
  (forall v : list spec_float, push 0 [] v = []) /\
  (forall (cap : Z) (h pushed : list (list spec_float)),
     - 2 ^ 31 <= cap < 0 ->
     Z.of_nat (length h + length pushed) < 2 ^ 63 ->
     foldl (push cap) h pushed = h ++ pushed).
Proof.
  split; [done|]. split; [done|]. split; [done|].
  intros cap h pushed. apply pushes_negative_capacity.
Qed.

(** With [maxHistory = -1] three pushes leave three entries. *)
Lemma configuration_is_not_validated_witness :
  foldl (push (-1)) [] [[f_lit 1 1]; [f_lit 2 1]; [f_lit 3 1 : spec_float]]
  = [] ++ [[f_lit 1 1]; [f_lit 2 1]; [f_lit 3 1]].
Proof.
  refine (proj2 (proj2 (proj2 configuration_is_not_validated))
            (-1) [] [[f_lit 1 1]; [f_lit 2 1]; [f_lit 3 1]] _ _).
  - lia.
  - simpl. lia.
Defined.

(** * Further properties of the pipeline *)

Section ShapeFacts.
Context {F : Type} `{Arith F} {N : NthElement F}.
Implicit Types (cfg : Config F) (st : State F) (probabilities : list F).

(** X1: [adjust] returns as many values as it is given, whatever the
    index, the boost factor and the values are. *)
Theorem adjust_keeps_class_count (a : EmotionProbabilityAdjuster F)
  probabilities :
  length (adjust a probabilities) = length probabilities.
Proof.
  unfold adjust. case_match.
  - rewrite length_fmap. apply boost_length.
  - apply boost_length.
Qed.


(** The state of the EMA keeps its length once it is seeded. *)
Lemma cycle_ema_length cfg st probabilities st' d :
  cycle cfg st probabilities = Ret (st', d) ->
  ema_state st <> [] ->
  length (ema_state st') = length (ema_state st).
Proof.
  intros Hc Hs. destruct probabilities as [|p ps].
  - rewrite cycle_skips_empty in Hc. by simplify_eq.
  - destruct (cycle_processed cfg st (p :: ps) st' d) as (Hema & _);
      [done | done |].
    destruct (applyEma_returns _ _ _ _ _ Hema) as (_ & _ & Hkeep). auto.
Qed.

Lemma reachable_uniform cfg st :
  reachable cfg st ->
  Forall (fun h => length h = length (ema_state st)) (history st).
Proof.
  intros Hreach.
  induction Hreach as [|st probabilities st' d Hreach IH Hc]; [constructor|].
  destruct probabilities as [|p ps].
  { rewrite cycle_skips_empty in Hc. by simplify_eq. }
  destruct (cycle_processed cfg st (p :: ps) st' d) as (Hema & Hh & _);
    [done | done |].
  rewrite Hh. apply push_Forall; [|done].
  destruct (decide (ema_state st = [])) as [Hs|Hs].
  - pose proof (reachable_history_nonempty cfg st Hreach) as Hne.
    rewrite Hs in IH. destruct (history st) as [|h0 hs]; [constructor|].
    apply Forall_cons in IH as [Hh0 _]. apply Forall_cons in Hne as [Hne _].
    by destruct h0.
  - rewrite (cycle_ema_length cfg st (p :: ps) st' d Hc Hs). exact IH.
Qed.

(** X3: in every state of the driver loop all the entries of the history
    have the length of the state of the EMA; an iteration keeps the length
    of a seeded state, and the vector it displays has that length too: the
    first processed frame fixes the number of classes for the whole run. *)
Theorem reachable_one_shape cfg st :
  reachable cfg st ->
  Forall (fun h => length h = length (ema_state st)) (history st) /\
  forall probabilities st' d,
    cycle cfg st probabilities = Ret (st', Some d) ->
    length d = length (ema_state st') /\
    (ema_state st <> [] ->
     length (ema_state st') = length (ema_state st)).
Proof.
  intros Hreach. split; [by apply (reachable_uniform cfg)|].
  intros probabilities st' d Hc.
  split; [|exact (cycle_ema_length cfg st probabilities st' (Some d) Hc)].
  pose proof (reachable_uniform cfg st'
                (reachable_cycle cfg st probabilities st' (Some d) Hreach Hc))
    as Hall.
  destruct probabilities as [|p ps].
  { rewrite cycle_skips_empty in Hc. by simplify_eq. }
  destruct (cycle_processed cfg st (p :: ps) st' (Some d)) as (_ & _ & Hd);
    [done | done |].
  simplify_eq. unfold display.
  destruct (history st') as [|front rest] eqn:Hh; [done|].
  destruct (medianFromHistory (front :: rest)) as [|m ms] eqn:Hm; [done|].
  rewrite <- Hm, medianFromHistory_length.
  by apply Forall_cons in Hall as [? _].
Qed.

End ShapeFacts.


Lemma reachable_one_shape_witness :
  Forall (fun h : list spec_float => length h = 2%nat)
         [[f_lit 1 2; f_lit 1 2]].
Proof.
  refine (proj1 (reachable_one_shape (N := by_sorting) driver_config
                   (mkState [[f_lit 1 2; f_lit 1 2]] [f_lit 1 2; f_lit 1 2])
                   _)).
  apply (reachable_cycle driver_config initial [f_lit 1 2; f_lit 1 2] _
           (Some [f_lit 1 2; f_lit 1 2])); [constructor|].
  vm_compute. reflexivity.
Defined.

Section HistoryFacts.
Context {F : Type} `{Arith F} {N : NthElement F}.
Implicit Types (cfg : Config F) (st : State F) (history : list (list F)).

(** The newest entry of a pushed history is the value pushed. *)
Lemma push_last {A} cap (h : list A) v :
  1 <= cap < 2 ^ 31 -> last (push cap h v) = Some v.
Proof.
  intros Hcap. unfold push. rewrite size_t_of_int_nonneg by lia.
  rewrite length_app. change (length [v]) with 1%nat.
  case_gtb Hgt; [|apply last_snoc].
  destruct h as [|x h]; [simpl in Hgt; lia|].
  simpl. rewrite drop_0. apply last_snoc.
Qed.

Lemma reachable_history_invariant cfg st :
  1 <= maxHistory cfg < 2 ^ 31 ->
  reachable cfg st ->
  Z.of_nat (length (history st)) <= maxHistory cfg /\
  (last (history st) = Some (ema_state st) \/
   history st = [] /\ ema_state st = []).
Proof.
  intros Hcap Hreach.
  induction Hreach as [|st probabilities st' d Hreach [IHlen IHlast] Hc].
  - split; [simpl; lia | by right].
  - destruct probabilities as [|p ps].
    { rewrite cycle_skips_empty in Hc. by simplify_eq. }
    destruct (cycle_processed cfg st (p :: ps) st' d) as (_ & Hh & _);
      [done | done |].
    rewrite Hh. split.
    + apply push_within_capacity; [lia | done].
    + left. by apply push_last.
Qed.

(** X4: in every state of the driver loop with a capacity of at least 1,
    the history holds at most [maxHistory] entries, and it is either still
    empty together with the state of the EMA, or its newest entry is the
    current state of the EMA. *)
Theorem reachable_history_bounded_and_current cfg st :
  1 <= maxHistory cfg < 2 ^ 31 ->
  reachable cfg st ->
  Z.of_nat (length (history st)) <= maxHistory cfg /\
  (last (history st) = Some (ema_state st) \/
   history st = [] /\ ema_state st = []).
Proof. apply reachable_history_invariant. Qed.

Lemma median_of_replicate (n : nat) (x : F) :
  nth_element_spec N -> median_of (replicate (S n) x) = x.
Proof.
  intros HN. apply (elem_of_replicate_inv _ (S n)).
  by apply (median_of_elem HN).
Qed.

Lemma column_replicate (n : nat) (v : list F) (c : nat) x :
  v !! c = Some x -> column (replicate n v) c = replicate n x.
Proof.
  intros Hx. unfold column. induction n as [|n IH]; [done|].
  simpl. rewrite Hx. simpl. by f_equal.
Qed.

Lemma medianFromHistory_replicate (n : nat) (v : list F) :
  nth_element_spec N -> medianFromHistory (replicate (S n) v) = v.
Proof.
  intros HN. apply list_eq. intros c. rewrite replicate_S.
  rewrite medianFromHistory_lookup. rewrite <- replicate_S.
  case_decide as Hc.
  - destruct (lookup_lt_is_Some_2 v c Hc) as [x Hx].
    by rewrite (column_replicate _ _ _ _ Hx), median_of_replicate, Hx.
  - symmetry. apply lookup_ge_None_2. lia.
Qed.

(** X5: the median of a history whose entries are all the same vector is
    that vector, in every arithmetic: a steady state passes through the
    aggregation unchanged, whichever rearrangement [std::nth_element]
    makes. *)
Theorem medianFromHistory_of_constant_history (n : nat) (v : list F) :
  nth_element_spec N -> medianFromHistory (replicate (S n) v) = v.
Proof. apply medianFromHistory_replicate. Qed.

(** X6: every value of the median is a value of the history at the same
    class: for each class [c] of the result some entry of the history has
    that value at index [c]. *)
Theorem medianFromHistory_picks_history_values history (c : nat) (m : F) :
  nth_element_spec N ->
  medianFromHistory history !! c = Some m ->
  exists h, h ∈ history /\ h !! c = Some m.
Proof.
  intros HN. destruct history as [|front rest]; [done|].
  rewrite medianFromHistory_lookup. case_decide as Hc; [|done].
  intros Hm. simplify_eq.
  assert (median_of (column (front :: rest) c) ∈ column (front :: rest) c)
    as Hin.
  { apply (median_of_elem HN). by apply column_front_nonempty. }
  apply list_elem_of_omap in Hin as (h & Hh & Hhc). eauto.
Qed.

Lemma cycle_from_initial cfg (probabilities : list F) :
  nth_element_spec N ->
  1 <= maxHistory cfg < 2 ^ 31 ->
  probabilities <> [] ->
  cycle cfg initial probabilities
  = Ret (mkState [adjust (adjuster cfg) probabilities]
                 (adjust (adjuster cfg) probabilities),
         Some (adjust (adjuster cfg) probabilities)).
Proof.
  intros HN Hcap Hp. unfold cycle.
  destruct probabilities as [|p ps]; [done|].
  change (ema_state initial) with (@nil F). rewrite applyEma_seed. simpl.
  assert (push (maxHistory cfg) [] (adjust (adjuster cfg) (p :: ps))
          = [adjust (adjuster cfg) (p :: ps)]) as ->.
  { unfold push. rewrite size_t_of_int_nonneg by lia. simpl.
    case_gtb Hgt; [lia | done]. }
  change [adjust (adjuster cfg) (p :: ps)]
    with (replicate 1 (adjust (adjuster cfg) (p :: ps))).
  rewrite (medianFromHistory_replicate 0) by done.
  unfold display.
  destruct (adjust (adjuster cfg) (p :: ps)) eqn:Ha; [|done].
  by apply adjust_nonempty in Ha.
Qed.

(** X7: on the first processed frame the driver seeds the EMA with the
    adjusted vector, the history holds that vector alone, and the vector
    displayed is the adjusted vector itself. *)
Theorem first_frame_displays_adjusted cfg (probabilities : list F) :
  nth_element_spec N ->
  1 <= maxHistory cfg < 2 ^ 31 ->
  probabilities <> [] ->
  cycle cfg initial probabilities
  = Ret (mkState [adjust (adjuster cfg) probabilities]
                 (adjust (adjuster cfg) probabilities),
         Some (adjust (adjuster cfg) probabilities)).
Proof. apply cycle_from_initial. Qed.
End HistoryFacts.

Lemma reachable_history_bounded_and_current_witness :
  Z.of_nat (length [[f_lit 1 2; f_lit 1 2 : spec_float]]) <= 60.
Proof.
  refine (proj1 (reachable_history_bounded_and_current (N := by_sorting)
                   driver_config
                   (mkState [[f_lit 1 2; f_lit 1 2]] [f_lit 1 2; f_lit 1 2])
                   _ _)).
  - simpl. lia.
  - apply (reachable_cycle driver_config initial [f_lit 1 2; f_lit 1 2] _
             (Some [f_lit 1 2; f_lit 1 2])); [constructor|].
    vm_compute. reflexivity.
Defined.

Lemma medianFromHistory_picks_history_values_witness :
  exists h : list spec_float,
    h ∈ [[f_lit 1 1]; [f_lit 2 1]] /\ h !! 0%nat = Some (f_lit 2 1).
Proof.
  apply (medianFromHistory_picks_history_values (N := by_sorting)
           [[f_lit 1 1]; [f_lit 2 1]] 0 (f_lit 2 1)).
  - apply by_sorting_spec.
  - vm_compute. reflexivity.
Defined.

Lemma medianFromHistory_of_constant_history_witness :
  medianFromHistory (N := by_sorting)
    (replicate 3 [f_lit 1 4; f_lit 3 4 : spec_float])
  = [f_lit 1 4; f_lit 3 4].
Proof.
  apply (medianFromHistory_of_constant_history (N := by_sorting) 2).
  apply by_sorting_spec.
Defined.

Lemma first_frame_displays_adjusted_witness :
  cycle (N := by_sorting) driver_config initial
    [f_lit 1 4; f_lit 3 4 : spec_float]
  = Ret (mkState [adjust (adjuster driver_config) [f_lit 1 4; f_lit 3 4]]
                 (adjust (adjuster driver_config) [f_lit 1 4; f_lit 3 4]),
         Some (adjust (adjuster driver_config) [f_lit 1 4; f_lit 3 4])).
Proof.
  apply first_frame_displays_adjusted.
  - apply by_sorting_spec.
  - simpl. lia.
  - discriminate.
Defined.

Section BufferFacts.
Context {A : Type}.
Implicit Types (h pushed : list A) (v : A).

(** X8: once the history holds at least [maxHistory] entries every push
    drops exactly the oldest entry: the length never changes again, so a
    history at capacity stays at capacity and a history that is over
    capacity is never brought back within it. *)
Theorem push_at_capacity_slides cap h pushed :
  0 <= cap < 2 ^ 31 ->
  cap <= Z.of_nat (length h) ->
  foldl (push cap) h pushed = drop (length pushed) (h ++ pushed) /\
  length (foldl (push cap) h pushed) = length h.
Proof.
  intros Hcap. revert h.
  induction pushed as [|v pushed IH]; intros h Hh.
  - simpl. rewrite app_nil_r. done.
  - assert (push cap h v = drop 1 (h ++ [v])) as Hpush.
    { unfold push. rewrite size_t_of_int_nonneg by done.
      rewrite length_app. change (length [v]) with 1%nat.
      case_gtb Hgt; [done | lia]. }
    simpl. rewrite Hpush.
    destruct (IH (drop 1 (h ++ [v]))) as [Hfold Hlen].
    { rewrite length_drop, length_app. simpl. lia. }
    split.
    + rewrite Hfold.
      change (S (length pushed)) with (1 + length pushed)%nat.
      rewrite <- (drop_drop (h ++ v :: pushed) (length pushed) 1).
      f_equal. rewrite (cons_middle v h pushed), app_assoc.
      rewrite (drop_app_le (h ++ [v])); [done|].
      rewrite length_app. simpl. lia.
    + rewrite Hlen, length_drop, length_app. simpl. lia.
Qed.

(** X9: a negative [maxHistory] is compared as a huge [size_t]: nothing is
    ever dropped and the history grows with every push. *)
Theorem push_negative_capacity_never_drops cap h pushed :
  - 2 ^ 31 <= cap < 0 ->
  Z.of_nat (length h + length pushed) < 2 ^ 63 ->
  foldl (push cap) h pushed = h ++ pushed.
Proof. apply pushes_negative_capacity. Qed.
End BufferFacts.

Lemma push_at_capacity_slides_witness :
  foldl (push 2) [1; 2]%nat [3; 4; 5]%nat
  = drop 3 ([1; 2] ++ [3; 4; 5])%nat.
Proof.
  refine (proj1 (push_at_capacity_slides 2 [1; 2]%nat [3; 4; 5]%nat _ _)).
  - lia.
  - simpl. lia.
Defined.

Lemma push_negative_capacity_never_drops_witness :
  foldl (push (-1)) [1]%nat [2; 3]%nat = ([1] ++ [2; 3])%nat.
Proof.
  apply push_negative_capacity_never_drops.
  - lia.
  - simpl. lia.
Defined.

(** ** Special values of binary32 in [adjust] *)

Lemma accumulate_from_nan (v : list spec_float) :
  foldl (f_add : spec_float -> _) S754_nan v = S754_nan.
Proof. induction v as [|x v IH]; [done | exact IH]. Qed.

Lemma accumulate_nan (v : list spec_float) (acc : spec_float) :
  S754_nan ∈ v -> foldl f_add acc v = S754_nan.
Proof.
  revert acc. induction v as [|x v IH]; intros acc Hin.
  - by apply elem_of_nil in Hin.
  - apply elem_of_cons in Hin as [<-|Hin].
    + simpl. replace (SFadd Binary32.prec Binary32.emax acc S754_nan)
        with S754_nan by (by destruct acc).
      apply accumulate_from_nan.
    + simpl. by apply IH.
Qed.

Lemma boost_keeps_nan (a : EmotionProbabilityAdjuster spec_float) v :
  S754_nan ∈ v -> S754_nan ∈ boost a v.
Proof.
  intros Hin. unfold boost. case_match; [|done].
  apply list_elem_of_lookup in Hin as [j Hj].
  apply list_elem_of_lookup.
  exists j. rewrite list_lookup_alter. case_decide as Hij; [|done].
  rewrite Hij, Hj. done.
Qed.

(** X10: a NaN anywhere in the input switches the normalization off: the
    sum is NaN, [sum > 0] is false, and [adjust] returns the boosted copy
    undivided, with the NaN still in it. *)
Theorem adjust_nan_is_not_normalized
  (a : EmotionProbabilityAdjuster spec_float) (probabilities : list spec_float) :
  S754_nan ∈ probabilities ->
  accumulate (boost a probabilities) = S754_nan /\
  adjust a probabilities = boost a probabilities /\
  S754_nan ∈ adjust a probabilities.
Proof.
  intros Hin. pose proof (boost_keeps_nan a _ Hin) as Hb.
  assert (accumulate (boost a probabilities) = S754_nan) as Hsum
    by (by apply accumulate_nan).
  assert (adjust a probabilities = boost a probabilities) as Hadj.
  { apply adjust_not_positive. by rewrite Hsum. }
  by rewrite Hadj.
Qed.

Lemma adjust_nan_is_not_normalized_witness :
  adjust (newAdjuster None None) [S754_nan; f_lit 1 2]
  = boost (newAdjuster None None) [S754_nan; f_lit 1 2].
Proof.
  refine (proj1 (proj2 (adjust_nan_is_not_normalized
                          (newAdjuster None None) [S754_nan; f_lit 1 2] _))).
  apply list_elem_of_here.
Defined.

(** X11: an input of zeros, of any length, comes back as it is for every
    index and every positive finite boost factor: the sum is 0, nothing is
    divided. *)
Theorem adjust_zeros_unchanged (n : nat) (index : Z) (m : positive) (e : Z) :
  adjust (mkAdjuster (S754_finite false m e) index)
         (replicate n (S754_zero false))
  = replicate n (S754_zero false).
Proof.
  assert (boost (mkAdjuster (S754_finite false m e) index)
                (replicate n (S754_zero false))
          = replicate n (S754_zero false)) as Hboost.
  { unfold boost. case_match; [|done].
    apply list_eq. intros i. rewrite list_lookup_alter.
    case_decide as Hi; [|done]. rewrite Hi.
    destruct (replicate n (S754_zero false) !! i) as [x|] eqn:Hx; [|done].
    apply lookup_replicate_1 in Hx as [-> _]. done. }
  assert (accumulate (replicate n (S754_zero false)) = S754_zero false)
    as Hsum.
  { unfold accumulate. clear Hboost.
    induction n as [|n IH]; [done | exact IH]. }
  rewrite adjust_not_positive; [exact Hboost|].
  by rewrite Hboost, Hsum.
Qed.

(** ** A steady stream in exact arithmetic *)

Section ExactSmoothing.
Context {N : NthElement Qc} (HN : nth_element_spec N).
Local Open Scope Qc_scope.
Implicit Types (x e alpha : Qc) (new_probs ema_state v : list Qc).
Implicit Types (cfg : Config Qc).

(** With an observation as long as the state the new state is the blend,
    index by index. *)
Lemma applyEma_zip new_probs ema_state alpha :
  ema_state <> [] ->
  length new_probs = length ema_state ->
  applyEma new_probs ema_state alpha
  = Ret (zip_with (ema_update alpha) new_probs ema_state,
         zip_with (ema_update alpha) new_probs ema_state).
Proof.
  intros Hne Hlen.
  destruct (applyEma_overlap new_probs ema_state alpha Hne)
    as (r & -> & Hlr & Hlook); [lia|].
  assert (r = zip_with (ema_update alpha) new_probs ema_state) as ->; [|done].
  apply list_eq. intros j. rewrite Hlook, lookup_zip_with.
  destruct (new_probs !! j) as [x|] eqn:Hx; simpl.
  - destruct (ema_state !! j) as [e|] eqn:He; [done|].
    apply lookup_lt_Some in Hx. apply lookup_ge_None_1 in He. lia.
  - apply lookup_ge_None.  apply lookup_ge_None_1 in Hx. lia.
Qed.

Lemma zip_with_ema_same alpha v : zip_with (ema_update alpha) v v = v.
Proof.
  induction v as [|x v IH]; [done|]. simpl. rewrite IH. f_equal.
  change (alpha * x + (1 - alpha) * x = x). ring.
Qed.

Lemma push_replicate {A} cap (j : nat) (x : A) :
  (1 <= cap < 2 ^ 31)%Z ->
  (Z.of_nat j <= cap)%Z ->
  push cap (replicate j x) x = replicate (S j `min` Z.to_nat cap) x.
Proof.
  intros Hcap Hj. unfold push. rewrite size_t_of_int_nonneg by lia.
  rewrite <- replicate_S_end, length_replicate.
  case_gtb Hgt.
  - rewrite drop_replicate. f_equal. lia.
  - f_equal. lia.
Qed.

(** An iteration on the steady state: the history holds [j] copies of the
    adjusted vector, which is also the state of the EMA. *)
Lemma steady_cycle cfg (j : nat) probabilities :
  (1 <= maxHistory cfg < 2 ^ 31)%Z ->
  probabilities <> [] ->
  (1 <= j)%nat ->
  (Z.of_nat j <= maxHistory cfg)%Z ->
  cycle cfg
    (mkState (replicate j (adjust (adjuster cfg) probabilities))
             (adjust (adjuster cfg) probabilities))
    probabilities
  = Ret (mkState (replicate (S j `min` Z.to_nat (maxHistory cfg))
                    (adjust (adjuster cfg) probabilities))
                 (adjust (adjuster cfg) probabilities),
         Some (adjust (adjuster cfg) probabilities)).
Proof.
  intros Hcap Hp Hj Hjc.
  pose proof (adjust_nonempty (adjuster cfg) _ Hp) as Hx.
  unfold cycle. destruct probabilities as [|p ps]; [done|].
  cbn [ema_state history].
  rewrite applyEma_zip, zip_with_ema_same by done.
  cbn [mbind res_bind].
  rewrite push_replicate by done.
  destruct (S j `min` Z.to_nat (maxHistory cfg))%nat as [|n] eqn:Hn; [lia|].
  rewrite medianFromHistory_replicate by done. unfold display.
  by destruct (adjust (adjuster cfg) (p :: ps)).
Qed.

Lemma steady_run cfg probabilities (m : nat) : forall j : nat,
  (1 <= maxHistory cfg < 2 ^ 31)%Z ->
  probabilities <> [] ->
  (1 <= j)%nat ->
  (Z.of_nat j <= maxHistory cfg)%Z ->
  run cfg
    (mkState (replicate j (adjust (adjuster cfg) probabilities))
             (adjust (adjuster cfg) probabilities))
    (replicate m probabilities)
  = Ret (mkState (replicate ((j + m) `min` Z.to_nat (maxHistory cfg))
                    (adjust (adjuster cfg) probabilities))
                 (adjust (adjuster cfg) probabilities),
         replicate m (Some (adjust (adjuster cfg) probabilities))).
Proof.
  induction m as [|m IH]; intros j Hcap Hp Hj Hjc.
  - replace ((j + 0) `min` Z.to_nat (maxHistory cfg))%nat with j by lia.
    reflexivity.
  - replace ((j + S m) `min` Z.to_nat (maxHistory cfg))%nat
      with ((S j `min` Z.to_nat (maxHistory cfg) + m)
              `min` Z.to_nat (maxHistory cfg))%nat by lia.
    cbn [replicate run]. rewrite steady_cycle by done.
    cbn [mbind res_bind]. rewrite IH by (done || lia). reflexivity.
Qed.

(** In exact arithmetic, on a stream that repeats one vector the driver
    displays the adjusted vector on every frame, the EMA stays at it, and
    the history fills up with copies of it. *)
Lemma steady_run_from_initial cfg probabilities (m : nat) :
  (1 <= maxHistory cfg < 2 ^ 31)%Z ->
  probabilities <> [] ->
  run cfg initial (replicate (S m) probabilities)
  = Ret (mkState (replicate (S m `min` Z.to_nat (maxHistory cfg))
                    (adjust (adjuster cfg) probabilities))
                 (adjust (adjuster cfg) probabilities),
         replicate (S m) (Some (adjust (adjuster cfg) probabilities))).
Proof.
  intros Hcap Hp. cbn [replicate run].
  rewrite cycle_from_initial by done. cbn [mbind res_bind].
  change [adjust (adjuster cfg) probabilities]
    with (replicate 1 (adjust (adjuster cfg) probabilities)).
  rewrite steady_run by (done || lia). reflexivity.
Qed.
End ExactSmoothing.

(** ** The scenario of the specification *)

(** C8, the counterexample: with BoostFactor 2.0 the boosted vector is
    [[0.25, 0.25, 0.25, 0.5]], of sum 1.25, so the adjusted vector is not
    [[1/7, 1/7, 1/7, 4/7]], neither in exact arithmetic nor in binary32. *)
Lemma scenario_adjusted_is_not_sevenths :
  adjust (adjuster Scenario.config) Scenario.raw
    <> (Scenario.sevenths : list Qc) /\
  adjust (adjuster Scenario.config) Scenario.raw
    <> (Scenario.sevenths : list spec_float).
Proof.
  split.
  - intros Heq. apply (f_equal (fmap this)) in Heq.
    vm_compute in Heq. discriminate.
  - vm_compute. discriminate.
Qed.

(** C8, as the code has it, for every [std::nth_element] that meets its
    postcondition.  In exact arithmetic each adjusted vector is
    [[1/5, 1/5, 1/5, 2/5]]; the EMA is seeded with it and stays there;
    after the three pushes the history holds three identical entries and
    every displayed median is the EMA value.  In binary32 the adjusted
    vector is the one of the nearest values; the history holds three
    entries after the three pushes, but each blend rounds one unit in the
    last place down, so the entries differ and the third median is the
    second EMA value, not the third. *)
Theorem scenario_three_frames
  (N : NthElement spec_float) (NQ : NthElement Qc) :
  nth_element_spec N ->
  nth_element_spec NQ ->
  adjust (adjuster Scenario.config) Scenario.raw = (Scenario.fifths : list Qc) /\
  run Scenario.config initial [Scenario.raw; Scenario.raw; Scenario.raw]
  = Ret (mkState
           [Scenario.fifths; Scenario.fifths; Scenario.fifths : list Qc]
           Scenario.fifths,
         [Some Scenario.fifths; Some Scenario.fifths; Some Scenario.fifths]) /\
  adjust (adjuster Scenario.config) Scenario.raw
  = (Scenario.fifths : list spec_float) /\
  run Scenario.config initial [Scenario.raw; Scenario.raw; Scenario.raw]
  = Ret (mkState
           [Scenario.fifths : list spec_float;
            Binary32.pred <$> Scenario.fifths;
            Binary32.pred <$> (Binary32.pred <$> Scenario.fifths)]
           (Binary32.pred <$> (Binary32.pred <$> Scenario.fifths)),
         [Some Scenario.fifths;
          Some Scenario.fifths;
          Some (Binary32.pred <$> Scenario.fifths)]) /\
  Binary32.pred <$> (Scenario.fifths : list spec_float)
    <> Binary32.pred <$> (Binary32.pred <$> Scenario.fifths).
Proof.
  intros HN HNQ.
  assert (adjust (adjuster Scenario.config) Scenario.raw
          = (Scenario.fifths : list Qc)) as Hadj by qc_eq.
  split; [exact Hadj|]. split.
  { rewrite <- Hadj.
    exact (steady_run_from_initial HNQ Scenario.config Scenario.raw 2
             ltac:(simpl; lia) ltac:(discriminate)). }
  split; [vm_compute; reflexivity|].
  split; [|vm_compute; discriminate].
  apply (run_cons _ _ _ _
           (mkState [Scenario.fifths] Scenario.fifths) (Some Scenario.fifths)).
  { apply (cycle_step _ _ _ Scenario.fifths Scenario.fifths
             [Scenario.fifths] Scenario.fifths);
      [discriminate | vm_compute; reflexivity | vm_compute; reflexivity
      | | vm_compute; reflexivity].
    medians_by_enumeration HN. }
  apply (run_cons _ _ _ _
           (mkState [Scenario.fifths; Binary32.pred <$> Scenario.fifths]
                    (Binary32.pred <$> Scenario.fifths))
           (Some Scenario.fifths)).
  { apply (cycle_step _ _ _
             (Binary32.pred <$> Scenario.fifths)
             (Binary32.pred <$> Scenario.fifths)
             [Scenario.fifths; Binary32.pred <$> Scenario.fifths]
             Scenario.fifths);
      [discriminate | vm_compute; reflexivity | vm_compute; reflexivity
      | | vm_compute; reflexivity].
    medians_by_enumeration HN. }
  apply (run_cons _ _ _ []
           (mkState [Scenario.fifths; Binary32.pred <$> Scenario.fifths;
                     Binary32.pred <$> (Binary32.pred <$> Scenario.fifths)]
                    (Binary32.pred <$> (Binary32.pred <$> Scenario.fifths)))
           (Some (Binary32.pred <$> Scenario.fifths))); [|reflexivity].
  apply (cycle_step _ _ _
           (Binary32.pred <$> (Binary32.pred <$> Scenario.fifths))
           (Binary32.pred <$> (Binary32.pred <$> Scenario.fifths))
           [Scenario.fifths; Binary32.pred <$> Scenario.fifths;
            Binary32.pred <$> (Binary32.pred <$> Scenario.fifths)]
           (Binary32.pred <$> Scenario.fifths));
    [discriminate | vm_compute; reflexivity | vm_compute; reflexivity
    | | vm_compute; reflexivity].
  medians_by_enumeration HN.
Qed.

(** The three frames with [std::nth_element] run as a full sort. *)
Lemma scenario_three_frames_witness :
  run (N := by_sorting) Scenario.config initial
    [Scenario.raw; Scenario.raw; Scenario.raw]
  = Ret (mkState
           [Scenario.fifths : list spec_float;
            Binary32.pred <$> Scenario.fifths;
            Binary32.pred <$> (Binary32.pred <$> Scenario.fifths)]
           (Binary32.pred <$> (Binary32.pred <$> Scenario.fifths)),
         [Some Scenario.fifths;
          Some Scenario.fifths;
          Some (Binary32.pred <$> Scenario.fifths)]).
Proof.
  exact (proj1 (proj2 (proj2 (proj2
    (scenario_three_frames by_sorting by_sorting
       by_sorting_spec by_sorting_spec))))).
Defined.

(** ** The value selected is a median *)

Section MedianSplits.
Context {F : Type} `{Arith F} {N : NthElement F} (HN : nth_element_spec N).
Implicit Types (col s : list F).

Lemma filter_all_length {A} (P : A -> Prop) `{forall x, Decision (P x)}
  (s : list A) :
  Forall P s -> length (filter P s) = length s.
Proof.
  induction 1 as [|x s Hx Hs IH]; [done|].
  rewrite filter_cons_True by done. simpl. by rewrite IH.
Qed.

Lemma filter_prefix_bound {A} (P : A -> Prop) `{forall x, Decision (P x)}
  (s : list A) (n : nat) :
  Forall P (take n s) -> (n <= length s)%nat ->
  (n <= length (filter P s))%nat.
Proof.
  intros Hall Hn. rewrite <- (take_drop n s).
  rewrite filter_app, length_app, filter_all_length by done.
  rewrite length_take. lia.
Qed.

Lemma filter_suffix_bound {A} (P : A -> Prop) `{forall x, Decision (P x)}
  (s : list A) (k : nat) :
  Forall P (drop k s) -> (length s - k <= length (filter P s))%nat.
Proof.
  intros Hall. rewrite <- (take_drop k s) at 2.
  rewrite filter_app, length_app, (filter_all_length _ (drop k s)) by done.
  rewrite length_drop. lia.
Qed.

(** On a strict weak ordering, more than half of the column is not
    greater than the value selected ([P]), and at least half of the column
    is not less than it ([Q]). *)
Lemma median_of_splits (P Q : F -> Prop)
  `{forall x, Decision (P x)} `{forall x, Decision (Q x)} col :
  col <> [] ->
  strict_weak_order col ->
  (forall x, x ∈ col -> f_ltb (median_of col) x = false -> P x) ->
  (forall x, x ∈ col -> f_ltb x (median_of col) = false -> Q x) ->
  (length col < 2 * length (filter P col))%nat /\
  (length col <= 2 * length (filter Q col))%nat.
Proof.
  intros Hne Hswo HP HQ.
  destruct (median_of_sorted HN col Hne Hswo) as (s & Hs & Ha & Hm).
  assert (length s = length col) as Hlen by by rewrite Hs.
  assert (length col / 2 < length col)%nat as Hk
    by (apply lookup_lt_Some in Hm; lia).
  assert (length col < 2 * S (length col / 2))%nat as Hhalf.
  { pose proof (Nat.div_mod_eq (length col) 2).
    pose proof (Nat.mod_upper_bound (length col) 2). lia. }
  assert (2 * (length col / 2) <= length col)%nat as Hhalf'
    by (pose proof (Nat.div_mod_eq (length col) 2); lia).
  assert (median_of col ∈ col) as Hmin by by apply (median_of_elem HN).
  assert (forall x, x ∈ s -> x ∈ col) as Hin
    by (intros x Hx; by rewrite <- Hs).
  rewrite <- !Hs. split.
  - pose proof (filter_prefix_bound P s (S (length col / 2))) as Hb.
    cut (S (length col / 2) <= length (filter P s))%nat; [lia|].
    apply Hb; [|lia].
    apply Forall_lookup. intros i x Hx.
    apply lookup_take_Some in Hx as [Hx Hi].
    apply HP; [by eapply Hin, list_elem_of_lookup_2|].
    destruct (decide (i = length col / 2)%nat) as [->|Hne'].
    + rewrite Hm in Hx. injection Hx as <-.
      by apply (strict_weak_order_irrefl col).
    + apply (Ha i (length col / 2)%nat); [lia | done | done].
  - pose proof (filter_suffix_bound Q s (length col / 2)) as Hb.
    cut (length col - length col / 2 <= length (filter Q s))%nat; [lia|].
    rewrite <- Hlen at 1. apply Hb.
    apply Forall_lookup. intros i x Hx. rewrite lookup_drop in Hx.
    apply HQ; [by eapply Hin, list_elem_of_lookup_2|].
    destruct i as [|i].
    + rewrite Nat.add_0_r, Hm in Hx. injection Hx as <-.
      by apply (strict_weak_order_irrefl col).
    + apply (Ha (length col / 2)%nat (length col / 2 + S i)%nat);
        [lia | done | done].
Qed.
End MedianSplits.

(** [<=] of binary32 from [operator<]: without a NaN, [x <= y] when [y] is
    not less than [x]. *)
Lemma SFleb_of_not_gt (x y : spec_float) :
  x <> S754_nan -> y <> S754_nan -> SFltb y x = false -> SFleb x y = true.
Proof.
  intros Hx Hy. rewrite (SFltb_key_false y x Hy Hx).
  unfold SFleb, key_lt.
  destruct x as [sx | sx | | sx mx ex], y as [sy | sy | | sy my ey];
    try done; simpl;
    try (destruct sx; simpl; (done || lia));
    try (destruct sy; simpl; (done || lia));
    try (destruct sx, sy; simpl; (done || lia)).
  destruct sx, sy; simpl; try (done || lia);
    change (Pos.compare_cont Eq mx my) with (mx ?= my)%positive;
    destruct (Z.compare_spec ex ey); simpl;
    try destruct (Pos.compare_spec mx my); simpl;
    (done || lia).
Qed.

(** X16: for a class whose column holds no NaN, the value
    [medianFromHistory] returns is a median of the column in the order of
    [float], for every [std::nth_element] that meets its postcondition:
    more than half of the column is [<=] that value, and at least half of
    the column is [>=] it. *)
Theorem medianFromHistory_is_a_median (N : NthElement spec_float)
  (history : list (list spec_float)) (c : nat) (m : spec_float) :
  nth_element_spec N ->
  S754_nan ∉ column history c ->
  medianFromHistory history !! c = Some m ->
  (length (column history c)
   < 2 * length (filter (fun x => SFleb x m = true) (column history c)))%nat /\
  (length (column history c)
   <= 2 * length (filter (fun x => SFleb m x = true) (column history c)))%nat.
Proof.
  intros HN Hnan.
  destruct history as [|front rest]; [done|].
  rewrite medianFromHistory_lookup. case_decide as Hc; [|done].
  intros Hm. simplify_eq.
  pose proof (column_front_nonempty front rest c Hc) as Hne.
  assert (forall x, x ∈ column (front :: rest) c -> x <> S754_nan) as Hnn
    by (by intros x Hx ->).
  pose proof (median_of_elem HN _ Hne) as Hmin.
  apply (median_of_splits HN); [done | by apply nan_free_strict_weak_order | |].
  - intros x Hx Hlt. apply SFleb_of_not_gt; [by apply Hnn | by apply Hnn | exact Hlt].
  - intros x Hx Hlt. apply SFleb_of_not_gt; [by apply Hnn | by apply Hnn | exact Hlt].
Qed.

Lemma medianFromHistory_is_a_median_witness :
  (length (column [[f_lit 1 1]; [f_lit 3 1]; [f_lit 2 1 : spec_float]] 0)
   < 2 * length (filter (fun x => SFleb x (f_lit 2 1) = true)
                   (column [[f_lit 1 1]; [f_lit 3 1]; [f_lit 2 1]] 0)))%nat /\
  (length (column [[f_lit 1 1]; [f_lit 3 1]; [f_lit 2 1 : spec_float]] 0)
   <= 2 * length (filter (fun x => SFleb (f_lit 2 1) x = true)
                    (column [[f_lit 1 1]; [f_lit 3 1]; [f_lit 2 1]] 0)))%nat.
Proof.
  apply (medianFromHistory_is_a_median by_sorting
           [[f_lit 1 1]; [f_lit 3 1]; [f_lit 2 1]] 0 (f_lit 2 1)).
  - apply by_sorting_spec.
  - nan_free.
  - vm_compute. reflexivity.
Defined.

(** ** [visualizeProbabilities] *)

Lemma size_minus_one_nonempty (size : nat) :
  (1 <= size)%nat -> Z.of_nat size <= 2 ^ 64 ->
  Z.to_nat (size_minus_one size) = (size - 1)%nat.
Proof.
  intros Hs Hmax. unfold size_minus_one. rewrite Z.mod_small; lia.
Qed.

Lemma size_minus_one_empty : Z.to_nat (size_minus_one 0) <> 0%nat.
Proof.
  unfold size_minus_one. change ((Z.of_nat 0 - 1) mod 2 ^ 64) with (2 ^ 64 - 1).
  lia.
Qed.

Section VisualizeFacts.
Context {C : Type}.
Implicit Types (history : list (list spec_float)) (colors : list C).
Implicit Types (draws : list (Draw C)).

Lemma index_done {A} (l : list A) (i : nat) x :
  index l i = Done x <-> l !! i = Some x.
Proof. unfold index. destruct (l !! i); split; intros; by simplify_eq. Qed.

Lemma graph_point_done history sectionStart scaleX scaleY (j i : nat) pt :
  graph_point history sectionStart scaleX scaleY j i = Done pt ->
  exists h, history !! i = Some h /\ (j < length h)%nat.
Proof.
  unfold graph_point. intros Hpt.
  destruct (graph_x _ _ _) as [x|]; [|done]. cbn [mbind outcome_bind] in Hpt.
  destruct (index history i) as [h|] eqn:Hh; [|done].
  cbn [mbind outcome_bind] in Hpt.
  destruct (index h j) as [v|] eqn:Hv; [|done].
  apply index_done in Hh. apply index_done in Hv.
  exists h. split; [done|]. by apply lookup_lt_Some in Hv.
Qed.

(** What the loop over the history has read when it returns. *)
Lemma graph_segments_done history colors sectionStart scaleX scaleY (j : nat)
  (n : nat) : forall (i : nat) draws,
  graph_segments history colors sectionStart scaleX scaleY j n i
  = Done draws ->
  length draws = n /\
  (n <> 0%nat ->
   (j < length colors)%nat /\
   forall i' : nat, (i <= i' <= i + n)%nat ->
     exists h, history !! i' = Some h /\ (j < length h)%nat).
Proof.
  induction n as [|n IH]; intros i draws Hd.
  - simpl in Hd. simplify_eq. done.
  - cbn [graph_segments] in Hd.
    destruct (graph_point _ _ _ _ _ i) as [pt1|] eqn:H1; [|done].
    cbn [mbind outcome_bind] in Hd.
    destruct (graph_point _ _ _ _ _ (i + 1)) as [pt2|] eqn:H2; [|done].
    cbn [mbind outcome_bind] in Hd.
    destruct (index colors j) as [color|] eqn:Hc; [|done].
    cbn [mbind outcome_bind] in Hd.
    destruct (graph_segments _ _ _ _ _ _ n (S i)) as [rest|] eqn:Hr; [|done].
    cbn [mbind outcome_bind] in Hd. simplify_eq.
    destruct (IH _ _ Hr) as [Hlen Hrest].
    split; [simpl; by rewrite Hlen|]. intros _.
    apply index_done, lookup_lt_Some in Hc. split; [done|].
    intros i' Hi'.
    destruct (decide (i' = i)) as [->|Hne]; [by eapply graph_point_done|].
    destruct (decide (i' = i + 1)%nat) as [->|Hne']; [by eapply graph_point_done|].
    apply Hrest; lia.
Qed.

Lemma graph_section_done classes history colors sectionWidth scaleX scaleY
  (j : nat) draws :
  graph_section classes history colors sectionWidth scaleX scaleY j
  = Done draws ->
  length draws = (3 + Z.to_nat (size_minus_one (length history)))%nat /\
  (Z.to_nat (size_minus_one (length history)) <> 0%nat ->
   (j < length colors)%nat /\
   forall i' : nat,
     (i' <= Z.to_nat (size_minus_one (length history)))%nat ->
     exists h, history !! i' = Some h /\ (j < length h)%nat).
Proof.
  unfold graph_section. intros Hd.
  destruct (index classes j) as [name|]; [|done].
  cbn [mbind outcome_bind] in Hd.
  destruct (graph_segments _ _ _ _ _ _ _ _) as [segments|] eqn:Hs; [|done].
  cbn [mbind outcome_bind] in Hd. simplify_eq.
  destruct (graph_segments_done _ _ _ _ _ _ _ _ _ Hs) as [Hlen Hread].
  split; [cbn [app length]; by rewrite Hlen|].
  intros Hn. destruct (Hread Hn) as [Hc Hh]. split; [done|].
  intros i' Hi'. apply Hh. lia.
Qed.

Lemma graph_sections_done classes history colors sectionWidth scaleX scaleY
  (n : nat) : forall (j : nat) draws,
  graph_sections classes history colors sectionWidth scaleX scaleY n j
  = Done draws ->
  length draws = (n * (3 + Z.to_nat (size_minus_one (length history))))%nat /\
  forall j' : nat, (j <= j' < j + n)%nat ->
    Z.to_nat (size_minus_one (length history)) <> 0%nat ->
    (j' < length colors)%nat /\
    forall i' : nat,
      (i' <= Z.to_nat (size_minus_one (length history)))%nat ->
      exists h, history !! i' = Some h /\ (j' < length h)%nat.
Proof.
  induction n as [|n IH]; intros j draws Hd.
  - simpl in Hd. simplify_eq. split; [done|]. intros j' Hj'. lia.
  - cbn [graph_sections] in Hd.
    destruct (graph_section _ _ _ _ _ _ j) as [section|] eqn:Hs; [|done].
    cbn [mbind outcome_bind] in Hd.
    destruct (graph_sections _ _ _ _ _ _ n (S j)) as [rest|] eqn:Hr; [|done].
    cbn [mbind outcome_bind] in Hd. simplify_eq.
    destruct (graph_section_done _ _ _ _ _ _ _ _ Hs) as [Hlen Hsec].
    destruct (IH _ _ Hr) as [Hlenr Hrest].
    split; [rewrite length_app, Hlen, Hlenr; lia|].
    intros j' Hj' Hn.
    destruct (decide (j' = j)) as [->|Hne]; [by apply Hsec|].
    apply Hrest; [lia | done].
Qed.

Lemma visualize_done_inv
  (probabilities : list spec_float) (classes : list string) history
  (maxHistory : Z) colors draws :
  Z.of_nat (length history) <= 2 ^ 64 ->
  visualizeProbabilities probabilities classes history maxHistory colors
  = Done draws ->
  classes <> [] /\
  history <> [] /\
  ((2 <= length history)%nat ->
   Forall (fun h => (length classes <= length h)%nat) history /\
   (length classes <= length colors)%nat) /\
  length draws = (4 + length classes * (2 + length history))%nat.
Proof.
  intros Hmax Hd. unfold visualizeProbabilities in Hd.
  destruct classes as [|name names] eqn:Hcl; [done|]. rewrite <- Hcl in *.
  assert (classes <> []) as Hne by (by rewrite Hcl).
  assert (1 <= length classes)%nat as Hn by (rewrite Hcl; simpl; lia).
  clear Hcl.
  destruct (graph_sections _ _ _ _ _ _ _ _) as [sections|] eqn:Hs; [|done].
  cbn [mbind outcome_bind] in Hd. simplify_eq.
  destruct (graph_sections_done _ _ _ _ _ _ _ _ _ Hs) as [Hlen Hread].
  assert (history <> []) as Hh.
  { intros ->. destruct (Hread 0%nat) as [_ Hrow]; [lia | |].
    - exact size_minus_one_empty.
    - destruct (Hrow 0%nat) as (h & Hh & _); [lia | done]. }
  assert (1 <= length history)%nat as Hlh by (destruct history; simpl; [done | lia]).
  rewrite size_minus_one_nonempty in Hlen, Hread by done.
  split; [done|]. split; [done|]. split.
  - intros H2. split.
    + apply Forall_lookup. intros i h Hi.
      destruct (Hread (length classes - 1)%nat) as [_ Hrow]; [lia | lia |].
      destruct (Hrow i) as (h' & Hh' & Hj).
      { apply lookup_lt_Some in Hi. lia. }
      simplify_eq. lia.
    + destruct (Hread (length classes - 1)%nat) as [Hc _]; lia.
  - replace (3 + (length history - 1))%nat with (2 + length history)%nat
      in Hlen by lia.
    cbn [app length]. rewrite !length_app, Hlen. simpl. lia.
Qed.
(** X17: whenever [visualizeProbabilities] is defined, there is at least
    one class and the history is not empty (with an empty history the
    bound [history.size() - 1] of the loop wraps around); if the history
    has two entries or more, every entry has a value for every class and
    there is a colour for every class; and the calls made are one
    [setTo], two axes and a name per class, one segment per class and
    pair of neighbouring entries, two captions and one [imshow]. *)
Theorem visualizeProbabilities_defined_requires
  (probabilities : list spec_float) (classes : list string) history
  (maxHistory : Z) colors draws :
  Z.of_nat (length history) <= 2 ^ 64 ->
  visualizeProbabilities probabilities classes history maxHistory colors
  = Done draws ->
  classes <> [] /\
  history <> [] /\
  ((2 <= length history)%nat ->
   Forall (fun h => (length classes <= length h)%nat) history /\
   (length classes <= length colors)%nat) /\
  length draws = (4 + length classes * (2 + length history))%nat.
Proof. apply visualize_done_inv. Qed.
End VisualizeFacts.

Lemma visualizeProbabilities_defined_requires_witness :
  exists draws : list (Draw nat),
    visualizeProbabilities [] classes [[f_lit 1 2]] 60 [] = Done draws /\
    length draws = (4 + length classes * (2 + 1))%nat.
Proof.
  eexists. split.
  - vm_compute. reflexivity.
  - refine (proj2 (proj2 (proj2
      (visualizeProbabilities_defined_requires [] classes [[f_lit 1 2]] 60
         ([] : list nat) _ _ _)))).
    + simpl. lia.
    + vm_compute. reflexivity.
Defined.

(** The abscissas of the driver's graph: seven classes, [maxHistory = 60]. *)
Lemma driver_graph_x (j i : nat) :
  (j < 7)%nat -> (i <= 60)%nat ->
  exists x,
    graph_x (Z.of_nat j * (Graph.width / Z.of_nat (length classes)))
            (f_div (Binary32.of_Z (Graph.width / Z.of_nat (length classes)
                                   - 2 * Graph.margin))
                   (Binary32.of_Z 60))
            i
    = Done x /\
    Z.of_nat j * 228 + 5 <= x <= Z.of_nat j * 228 + 223.
Proof.
  intros Hj Hi.
  assert (forallb (fun j : nat => forallb (fun i : nat =>
            match graph_x
                    (Z.of_nat j * (Graph.width / Z.of_nat (length classes)))
                    (f_div (Binary32.of_Z
                              (Graph.width / Z.of_nat (length classes)
                               - 2 * Graph.margin))
                           (Binary32.of_Z 60)) i with
            | Done x => (Z.of_nat j * 228 + 5 <=? x)
                        && (x <=? Z.of_nat j * 228 + 223)
            | Fault _ => false
            end) (seq 0 61)) (seq 0 7) = true) as Hall
    by (vm_compute; reflexivity).
  rewrite forallb_forall in Hall.
  specialize (Hall j). rewrite forallb_forall in Hall.
  specialize (Hall ltac:(apply in_seq; lia) i ltac:(apply in_seq; lia)).
  destruct (graph_x _ _ i) as [x|]; [|done].
  exists x. split; [done | lia].
Qed.

(** X18: in the graph of the driver (seven classes, [maxHistory = 60])
    the abscissa of every point of a history of at most 61 entries is
    defined and lies on the horizontal axis of its class, between
    [sectionStart + 5] and [sectionStart + 223]. *)
Theorem driver_graph_stays_in_its_section (j i : nat) :
  (j < length classes)%nat -> (i <= 60)%nat ->
  exists x,
    graph_x (Z.of_nat j * (Graph.width / Z.of_nat (length classes)))
            (f_div (Binary32.of_Z (Graph.width / Z.of_nat (length classes)
                                   - 2 * Graph.margin))
                   (Binary32.of_Z 60))
            i
    = Done x /\
    Z.of_nat j * (Graph.width / Z.of_nat (length classes)) + Graph.margin
    <= x
    <= Z.of_nat j * (Graph.width / Z.of_nat (length classes))
       + Graph.width / Z.of_nat (length classes) - Graph.margin.
Proof.
  intros Hj Hi. destruct (driver_graph_x j i Hj Hi) as (x & Hx & Hrange).
  exists x. split; [done|].
  change (Graph.width / Z.of_nat (length classes)) with 228.
  change Graph.margin with 5. lia.
Qed.

Lemma driver_graph_stays_in_its_section_witness :
  exists x,
    graph_x (Z.of_nat 6 * (Graph.width / Z.of_nat (length classes)))
            (f_div (Binary32.of_Z (Graph.width / Z.of_nat (length classes)
                                   - 2 * Graph.margin))
                   (Binary32.of_Z 60))
            60
    = Done x /\
    Z.of_nat 6 * (Graph.width / Z.of_nat (length classes)) + Graph.margin
    <= x
    <= Z.of_nat 6 * (Graph.width / Z.of_nat (length classes))
       + Graph.width / Z.of_nat (length classes) - Graph.margin.
Proof.
  apply driver_graph_stays_in_its_section.
  - simpl. lia.
  - lia.
Defined.

Section VisualizeDefined.
Context {C : Type}.
Implicit Types (history : list (list spec_float)) (colors : list C).

Lemma graph_point_defined history sectionStart scaleX scaleY (j i : nat) h v :
  (exists x, graph_x sectionStart scaleX i = Done x) ->
  history !! i = Some h ->
  h !! j = Some v ->
  (exists y, graph_y scaleY v = Done y) ->
  exists pt, graph_point history sectionStart scaleX scaleY j i = Done pt.
Proof.
  intros [x Hx] Hh Hv [y Hy]. unfold graph_point.
  rewrite Hx. cbn [mbind outcome_bind].
  rewrite (proj2 (index_done history i h) Hh). cbn [mbind outcome_bind].
  rewrite (proj2 (index_done h j v) Hv). cbn [mbind outcome_bind].
  rewrite Hy. cbn [mbind outcome_bind]. by eexists.
Qed.

Lemma graph_segments_defined history colors sectionStart scaleX scaleY
  (j n : nat) : forall i : nat,
  (forall i' : nat, (i <= i' <= i + n)%nat ->
     exists pt,
       graph_point history sectionStart scaleX scaleY j i' = Done pt) ->
  (j < length colors)%nat ->
  exists draws : list (Draw C),
    graph_segments history colors sectionStart scaleX scaleY j n i
    = Done draws.
Proof.
  induction n as [|n IH]; intros i Hpt Hc; [by eexists|].
  cbn [graph_segments].
  destruct (Hpt i) as [pt1 ->]; [lia|]. cbn [mbind outcome_bind].
  destruct (Hpt (i + 1)%nat) as [pt2 ->]; [lia|]. cbn [mbind outcome_bind].
  destruct (lookup_lt_is_Some_2 colors j Hc) as [color Hcolor].
  rewrite (proj2 (index_done colors j color) Hcolor).
  cbn [mbind outcome_bind].
  destruct (IH (S i)) as [rest ->]; [|done|].
  - intros i' Hi'. apply Hpt. lia.
  - cbn [mbind outcome_bind]. by eexists.
Qed.

Lemma graph_sections_defined (names : list string) history colors
  sectionWidth scaleX scaleY (n : nat) : forall j : nat,
  (forall j' : nat, (j <= j' < j + n)%nat ->
     exists draws : list (Draw C),
       graph_section names history colors sectionWidth scaleX scaleY j'
       = Done draws) ->
  exists draws : list (Draw C),
    graph_sections names history colors sectionWidth scaleX scaleY n j
    = Done draws.
Proof.
  induction n as [|n IH]; intros j Hsec; [by eexists|].
  cbn [graph_sections].
  destruct (Hsec j) as [section ->]; [lia|]. cbn [mbind outcome_bind].
  destruct (IH (S j)) as [rest ->].
  - intros j' Hj'. apply Hsec. lia.
  - cbn [mbind outcome_bind]. by eexists.
Qed.

(** X19: with the classes and the [maxHistory = 60] of the driver,
    [visualizeProbabilities] is defined on every history of 1 to 61
    entries in which each entry has a value for each of the seven classes
    and every value can be placed on the graph, given a colour for each
    class. *)
Theorem driver_graph_is_defined (probabilities : list spec_float)
  history colors :
  history <> [] ->
  (length history <= 61)%nat ->
  Forall (fun h => (length classes <= length h)%nat /\ Forall plottable h)
         history ->
  (length classes <= length colors)%nat ->
  exists draws : list (Draw C),
    visualizeProbabilities probabilities classes history 60 colors
    = Done draws.
Proof.
  intros Hne Hlen Hall Hc.
  assert (1 <= length history)%nat as Hl
    by (destruct history; simpl; [done | lia]).
  unfold visualizeProbabilities.
  change (match classes with [] => _ | _ => ?k end) with k. cbv zeta.
  destruct (graph_sections_defined classes history colors
              (Graph.width / Z.of_nat (length classes))
              (f_div (Binary32.of_Z (Graph.width / Z.of_nat (length classes)
                                     - 2 * Graph.margin))
                     (Binary32.of_Z 60))
              (Binary32.of_Z (Graph.height - 2 * Graph.margin))
              (length classes) 0) as [sections ->].
  - intros j Hj. unfold graph_section.
    destruct (lookup_lt_is_Some_2 classes j) as [name Hname]; [lia|].
    rewrite (proj2 (index_done classes j name) Hname).
    cbn [mbind outcome_bind].
    rewrite size_minus_one_nonempty by lia.
    destruct (graph_segments_defined history colors
                (Z.of_nat j * (Graph.width / Z.of_nat (length classes)))
                (f_div (Binary32.of_Z
                          (Graph.width / Z.of_nat (length classes)
                           - 2 * Graph.margin))
                       (Binary32.of_Z 60))
                (Binary32.of_Z (Graph.height - 2 * Graph.margin))
                j (length history - 1) 0) as [segments ->]; [|lia|].
    + intros i Hi.
      destruct (lookup_lt_is_Some_2 history i) as [h Hh]; [lia|].
      destruct (Forall_lookup_1 _ _ _ _ Hall Hh) as [Hhl Hplot].
      destruct (lookup_lt_is_Some_2 h j) as [v Hv]; [lia|].
      apply (graph_point_defined history _ _ _ j i h v); [|done|done|].
      * destruct (driver_graph_x j i) as (x & Hx & _); [simpl in Hj; lia | lia |].
        by exists x.
      * exact (Forall_lookup_1 _ _ _ _ Hplot Hv).
    + cbn [mbind outcome_bind]. by eexists.
  - cbn [mbind outcome_bind]. by eexists.
Qed.
End VisualizeDefined.

Lemma driver_graph_is_defined_witness :
  exists draws : list (Draw nat),
    visualizeProbabilities []
      classes [replicate 7 (f_lit 1 7); replicate 7 (f_lit 1 7)] 60 (seq 0 7)
    = Done draws.
Proof.
  apply driver_graph_is_defined.
  - discriminate.
  - simpl. lia.
  - repeat constructor; eexists; vm_compute; reflexivity.
  - simpl. lia.
Defined.

(** X20: if the vectors of the run have fewer values than there are
    classes to draw, the frame after the first processed one is undefined:
    the history then holds two entries and [visualizeProbabilities] reads
    [history[i][j]] for every class [j]. *)
Theorem frame_faults_on_short_vectors {C : Type} {N : NthElement spec_float}
  (cfg : Config spec_float) (colors : list C) st probabilities :
  2 <= maxHistory cfg < 2 ^ 31 ->
  reachable cfg st ->
  history st <> [] ->
  (length (ema_state st) < length classes)%nat ->
  probabilities <> [] ->
  exists f, frame cfg colors st probabilities = Fault f.
Proof.
  intros Hcap Hreach Hh Hshort Hp. unfold frame.
  destruct (cycle cfg st probabilities) as [[st' d]|] eqn:Hc; [|by eexists].
  destruct (cycle_processed _ _ _ _ _ Hp Hc) as (_ & Hhist & ->).
  assert (ema_state st <> []) as Hs.
  { pose proof (reachable_uniform cfg st Hreach) as Hu.
    pose proof (reachable_history_nonempty cfg st Hreach) as Hn.
    destruct (history st) as [|h0 hs]; [done|].
    apply Forall_cons in Hu as [Hu _]. apply Forall_cons in Hn as [Hn _].
    intros Hnil. rewrite Hnil in Hu. by destruct h0. }
  pose proof (cycle_ema_length _ _ _ _ _ Hc Hs) as Hlen.
  pose proof (reachable_cycle cfg st probabilities st' _ Hreach Hc) as Hreach'.
  pose proof (reachable_uniform cfg st' Hreach') as Hu'.
  destruct (reachable_history_invariant cfg st') as [Hbound _];
    [lia | done |].
  assert (2 <= length (history st'))%nat as H2.
  { rewrite Hhist, push_length by lia.
    destruct (history st); [done|]. case_decide; simpl in *; lia. }
  destruct (visualizeProbabilities _ _ _ _ _) as [draws|f] eqn:Hv;
    [|by eexists].
  exfalso.
  assert (Z.of_nat (length (history st')) <= 2 ^ 64) as Hmax by lia.
  destruct (visualize_done_inv _ _ _ _ _ _ Hmax Hv) as (_ & _ & Hall & _).
  destruct (Hall H2) as [Hall' _].
  destruct (history st') as [|h0 hs]; [simpl in H2; lia|].
  apply Forall_cons in Hall' as [Hlong _].
  apply Forall_cons in Hu' as [Hsame _]. lia.
Qed.

Lemma frame_faults_on_short_vectors_witness :
  exists f,
    frame (N := by_sorting) driver_config (seq 0 7)
      (mkState [[f_lit 1 2; f_lit 1 2]] [f_lit 1 2; f_lit 1 2])
      [f_lit 1 4; f_lit 3 4]
    = Fault f.
Proof.
  apply frame_faults_on_short_vectors.
  - simpl. lia.
  - apply (reachable_cycle driver_config initial [f_lit 1 2; f_lit 1 2] _
             (Some [f_lit 1 2; f_lit 1 2])); [constructor|].
    vm_compute. reflexivity.
  - discriminate.
  - simpl. lia.
  - discriminate.
Defined.
